(** * file_tree_builder_tui: the selection / traversal engine of [app.py]

    A shallow embedding of the core of [app.py] (path exclusion, binary
    sniffing, the lazily populated node tree with its selection flags,
    and the Markdown builder), followed by the properties stated about it.

    Conventions of the embedding.
    - A Python [str] is a [string] holding its UTF-8 bytes; [bytes] is
      [list byte].
    - A [pathlib.Path] is its anchor plus the list of its name segments.
      Segments are what [pathlib] hands out: non-empty names without a
      separator.
    - Module-level configuration ([ROOT], [EXCLUDES], ...) and the library
      functions the program calls ([fnmatch.fnmatchcase], [str.lower],
      [bytes.decode]) are section variables; concrete models of the
      library functions are given in [PyLib] and used for the examples.
    - A call that raises is modelled by [None]; a [try/except] is a
      [match] on it.
    - What depends on the machine, the largest length [fh.read] returns
      for and the text of the exception it raises otherwise, is a
      section variable as well. *)

From Stdlib Require Import ZArith List Strings.String Strings.Ascii Strings.Byte Bool Lia Floats DecimalString.
From stdpp Require Import base option list gmap strings countable.
Import ListNotations.

Set Warnings "-register-all".
Local Open Scope string_scope.
Local Open Scope list_scope.

(* ================================================================= *)
(** ** Strings *)

Module Str.

Definition nl : string := String "010"%char EmptyString.
Definition backslash : ascii := "\"%char.
Definition slash : ascii := "/"%char.

(** [s.replace(a, b)] for single characters. *)
Fixpoint replace_char (a b : ascii) (s : string) : string :=
  match s with
  | EmptyString => EmptyString
  | String c r =>
      String (if Ascii.eqb c a then b else c) (replace_char a b r)
  end.

(** [bool(s)]: a string is truthy when it is not empty. *)
Definition truthy (s : string) : bool :=
  match s with EmptyString => false | String _ _ => true end.

(** [s.startswith(pre)]. *)
Definition startswith (s pre : string) : bool := String.prefix pre s.

(** [sep.join(ls)]. *)
Definition join (sep : string) (ls : list string) : string :=
  String.concat sep ls.

(** [s.rstrip(c)] for a single character: trailing copies of [c] go. *)
Fixpoint rstrip (c : ascii) (s : string) : string :=
  match s with
  | EmptyString => EmptyString
  | String a r =>
      match rstrip c r with
      | EmptyString => if Ascii.eqb a c then EmptyString else String a EmptyString
      | r' => String a r'
      end
  end.


(** [str(n)] for an integer. *)
Definition of_Z (n : Z) : string := NilZero.string_of_int (Z.to_int n).

(** [s.rfind(c)]: position of the last [c], if any. *)
Fixpoint rfind (c : ascii) (s : string) : option nat :=
  match s with
  | EmptyString => None
  | String a r =>
      match rfind c r with
      | Some i => Some (S i)
      | None => if Ascii.eqb a c then Some 0 else None
      end
  end.

Lemma truthy_false s : truthy s = false <-> s = "".
Proof. destruct s; simpl; split; congruence. Qed.

Lemma replace_char_truthy a b s : truthy (replace_char a b s) = truthy s.
Proof. destruct s; reflexivity. Qed.

End Str.

(* ================================================================= *)
(** ** Paths *)

Record Path : Type := mkPath { anchor : string; tail : list string }.

#[global] Instance Path_eq_dec : EqDecision Path.
Proof. solve_decision. Defined.

#[global] Instance Path_countable : Countable Path.
Proof.
  apply (inj_countable' (fun p => (anchor p, tail p))
                        (fun t => mkPath (fst t) (snd t))).
  intros []; reflexivity.
Defined.

Module PathOps.

(** [p.parts]: the anchor, when there is one, then the segments. *)
Definition parts (p : Path) : list string :=
  (if Str.truthy (anchor p) then [anchor p] else []) ++ tail p.

(** [p.name]: the last segment, or the empty string. *)
Definition name (p : Path) : string := List.last (tail p) "".

(** [p.parent]: drop the last segment; a path without segments is its
    own parent. *)
Definition parent (p : Path) : Path :=
  mkPath (anchor p) (removelast (tail p)).

(** [p / seg]. *)
Definition child (p : Path) (seg : string) : Path :=
  mkPath (anchor p) (tail p ++ [seg]).

(** [p / s1 / ... / sn]. *)
Definition under (p : Path) (rel : list string) : Path :=
  mkPath (anchor p) (tail p ++ rel).

Fixpoint strip_prefix (pre l : list string) : option (list string) :=
  match pre, l with
  | [], _ => Some l
  | a :: pre', b :: l' =>
      if String.eqb a b then strip_prefix pre' l' else None
  | _ :: _, [] => None
  end.

(** [p.relative_to(other).parts]; [None] is the [ValueError] raised
    when [p] is not [other] or below it. *)
Definition relative_to (p other : Path) : option (list string) :=
  if String.eqb (anchor p) (anchor other)
  then strip_prefix (tail other) (tail p)
  else None.

(** [str(Path( *segs ))] for relative segments: the current-directory
    marker when there are none, otherwise the segments joined. *)
Definition str_rel (segs : list string) : string :=
  match segs with
  | [] => "."
  | _ => Str.join "/" segs
  end.

(** [p.relative_to(other).as_posix()]. *)
Definition as_posix_rel (segs : list string) : string := str_rel segs.

(** [p.suffix]: from the last dot of the name on, unless that dot is
    the first or the last character. *)
Definition suffix (p : Path) : string :=
  let n := name p in
  match Str.rfind "."%char n with
  | Some i =>
      if (0 <? i)%nat && (i <? String.length n - 1)%nat
      then String.substring i (String.length n - i) n
      else ""
  | None => ""
  end.

Lemma strip_prefix_app pre l : strip_prefix pre (pre ++ l) = Some l.
Proof.
  induction pre as [|a pre IH]; simpl; [reflexivity|].
  rewrite String.eqb_refl. exact IH.
Qed.

Lemma strip_prefix_Some pre l r : strip_prefix pre l = Some r -> l = pre ++ r.
Proof.
  revert l; induction pre as [|a pre IH]; intros l H; simpl in *.
  - congruence.
  - destruct l as [|b l]; [discriminate|].
    destruct (String.eqb a b) eqn:E; [|discriminate].
    apply String.eqb_eq in E; subst b. f_equal. auto.
Qed.

Lemma relative_to_under p rel : relative_to (under p rel) p = Some rel.
Proof.
  unfold relative_to, under; simpl.
  rewrite String.eqb_refl. apply strip_prefix_app.
Qed.

Lemma relative_to_Some p q rel : relative_to p q = Some rel -> p = under q rel.
Proof.
  unfold relative_to, under. destruct p as [a t], q as [b u]; simpl.
  destruct (String.eqb a b) eqn:E; [|discriminate].
  apply String.eqb_eq in E; subst b.
  intros H. apply strip_prefix_Some in H. congruence.
Qed.

Lemma under_nil p : under p [] = p.
Proof. destruct p; unfold under; simpl. now rewrite app_nil_r. Qed.

Lemma under_eq_root p rel : under p rel = p -> rel = [].
Proof.
  destruct p as [a t]; unfold under; simpl. intros H.
  injection H as H.
  rewrite <- (app_nil_r t) in H at 2. now apply app_inv_head in H.
Qed.

Lemma child_under p rel seg : child (under p rel) seg = under p (rel ++ [seg]).
Proof. unfold child, under; simpl. now rewrite app_assoc. Qed.

Lemma child_is_under p seg : child p seg = under p [seg].
Proof. reflexivity. Qed.

Lemma parent_under_snoc p rel seg : parent (under p (rel ++ [seg])) = under p rel.
Proof.
  unfold parent, under; simpl. rewrite app_assoc, removelast_last. reflexivity.
Qed.


End PathOps.

(* ================================================================= *)
(** ** Models of the Python library functions the program calls *)

Module PyLib.

(** *** [fnmatch.fnmatchcase]

    The pattern language of [fnmatch.translate]: [*] matches any run of
    characters (separators and leading dots included), [?] one
    character, [[seq]] and [[!seq]] one character in or out of a class
    with [lo-hi] ranges, anything else itself; a [[] without a closing
    bracket is an ordinary character.  The whole name has to match. *)

Inductive glob_tok : Type :=
| GStar
| GAny
| GLit (c : ascii)
| GClass (neg : bool) (items : list (ascii * ascii)).

Fixpoint scan_close (s acc : list ascii) : option (list ascii * list ascii) :=
  match s with
  | [] => None
  | c :: r =>
      if Ascii.eqb c "]" then Some (rev acc, r) else scan_close r (c :: acc)
  end.

(** What follows an opening bracket: an optional [!], an optional
    literal []], then everything up to the next []]. *)
Definition bracket (s : list ascii) : option (bool * list ascii * list ascii) :=
  let '(neg, s1) :=
    match s with
    | c :: r => if Ascii.eqb c "!" then (true, r) else (false, s)
    | [] => (false, s)
    end in
  match s1 with
  | c :: r =>
      if Ascii.eqb c "]"
      then match scan_close r [] with
           | Some (stuff, rest) => Some (neg, c :: stuff, rest)
           | None => None
           end
      else match scan_close s1 [] with
           | Some (stuff, rest) => Some (neg, stuff, rest)
           | None => None
           end
  | [] => None
  end.

Fixpoint class_items (stuff : list ascii) : list (ascii * ascii) :=
  match stuff with
  | [] => []
  | lo :: r =>
      match r with
      | dash :: hi :: r' =>
          if Ascii.eqb dash "-" then (lo, hi) :: class_items r'
          else (lo, lo) :: class_items r
      | _ => (lo, lo) :: class_items r
      end
  end.

Fixpoint tokenize (fuel : nat) (pat : list ascii) : list glob_tok :=
  match fuel, pat with
  | S f, c :: r =>
      if Ascii.eqb c "*" then GStar :: tokenize f r
      else if Ascii.eqb c "?" then GAny :: tokenize f r
      else if Ascii.eqb c "[" then
        match bracket r with
        | Some (neg, stuff, rest) => GClass neg (class_items stuff) :: tokenize f rest
        | None => GLit c :: tokenize f r
        end
      else GLit c :: tokenize f r
  | _, _ => []
  end.

Definition in_class (items : list (ascii * ascii)) (c : ascii) : bool :=
  existsb (fun '(lo, hi) => Ascii.leb lo c && Ascii.leb c hi) items.

Fixpoint match_toks (toks : list glob_tok) : list ascii -> bool :=
  match toks with
  | [] => fun s => match s with [] => true | _ => false end
  | GStar :: ts =>
      fix star (s : list ascii) : bool :=
        match_toks ts s
        || match s with [] => false | _ :: s' => star s' end
  | GAny :: ts =>
      fun s => match s with [] => false | _ :: s' => match_toks ts s' end
  | GLit c :: ts =>
      fun s => match s with
               | [] => false
               | a :: s' => Ascii.eqb a c && match_toks ts s'
               end
  | GClass neg items :: ts =>
      fun s => match s with
               | [] => false
               | a :: s' => xorb neg (in_class items a) && match_toks ts s'
               end
  end.

Definition fnmatchcase (name pat : string) : bool :=
  let p := list_ascii_of_string pat in
  match_toks (tokenize (List.length p) p) (list_ascii_of_string name).

(** *** [str.lower], on the ASCII letters *)

Definition lower_char (c : ascii) : ascii :=
  let n := N_of_ascii c in
  if (65 <=? n)%N && (n <=? 90)%N then ascii_of_N (n + 32) else c.

Fixpoint lower (s : string) : string :=
  match s with
  | EmptyString => EmptyString
  | String c r => String (lower_char c) (lower r)
  end.

(** *** [bytes.decode("utf-8")] and [bytes.decode("utf-8", errors="replace")]

    A decoded text is kept as its UTF-8 bytes, so decoding a
    well-formed byte string returns the same bytes.  With
    [errors="replace"] every maximal ill-formed part becomes U+FFFD. *)

Definition in_range (lo hi : N) (b : byte) : bool :=
  ((lo <=? Byte.to_N b) && (Byte.to_N b <=? hi))%N.

Definition cont (b : byte) : bool := in_range 128 191 b.

(** The range of the second byte, given the lead byte of a 3- or
    4-byte sequence. *)
Definition second_ok (b0 b1 : byte) : bool :=
  if in_range 224 224 b0 then in_range 160 191 b1
  else if in_range 237 237 b0 then in_range 128 159 b1
  else if in_range 240 240 b0 then in_range 144 191 b1
  else if in_range 244 244 b0 then in_range 128 143 b1
  else cont b1.

Definition fffd : list byte := [xef; xbf; xbd]%byte.

Fixpoint decode_replace_bytes (bs : list byte) : list byte :=
  match bs with
  | [] => []
  | b0 :: r0 =>
      if in_range 0 127 b0 then b0 :: decode_replace_bytes r0
      else if in_range 194 223 b0 then
        match r0 with
        | b1 :: r1 =>
            if cont b1 then b0 :: b1 :: decode_replace_bytes r1
            else fffd ++ decode_replace_bytes r0
        | [] => fffd
        end
      else if in_range 224 239 b0 then
        match r0 with
        | b1 :: r1 =>
            if second_ok b0 b1 then
              match r1 with
              | b2 :: r2 =>
                  if cont b2 then b0 :: b1 :: b2 :: decode_replace_bytes r2
                  else fffd ++ decode_replace_bytes r1
              | [] => fffd
              end
            else fffd ++ decode_replace_bytes r0
        | [] => fffd
        end
      else if in_range 240 244 b0 then
        match r0 with
        | b1 :: r1 =>
            if second_ok b0 b1 then
              match r1 with
              | b2 :: r2 =>
                  if cont b2 then
                    match r2 with
                    | b3 :: r3 =>
                        if cont b3
                        then b0 :: b1 :: b2 :: b3 :: decode_replace_bytes r3
                        else fffd ++ decode_replace_bytes r2
                    | [] => fffd
                    end
                  else fffd ++ decode_replace_bytes r1
              | [] => fffd
              end
            else fffd ++ decode_replace_bytes r0
        | [] => fffd
        end
      else fffd ++ decode_replace_bytes r0
  end.

Definition decode_replace (bs : list byte) : string :=
  string_of_list_byte (decode_replace_bytes bs).

(** Strict decoding fails exactly when a replacement would be needed. *)
Definition decode_strict (bs : list byte) : option string :=
  if list_eq_dec Byte.byte_eq_dec (decode_replace_bytes bs) bs
  then Some (string_of_list_byte bs)
  else None.

(** *** [BufferedReader.read], on a 64-bit build of CPython

    The call allocates the [n] bytes asked for before it reads, so the
    largest length it returns for depends on the memory of the machine;
    the machine of the examples reads up to [2 ^ 32] bytes in one call.
    The text of the exception raised otherwise: [ValueError] for a
    length below [-1], [OverflowError] for a length that is not a
    [Py_ssize_t] or that, with the header of a [bytes] object (33
    bytes), passes [sys.maxsize], and [MemoryError], whose text is
    empty, in between. *)
Definition READ_MAX : Z := (2 ^ 32)%Z.

Definition read_error (n : Z) : string :=
  if ((n <? - 2 ^ 63) || (2 ^ 63 - 1 <? n))%Z
  then "cannot fit 'int' into an index-sized integer"
  else if (n <? -1)%Z then "read length must be non-negative or -1"
  else if (2 ^ 63 - 1 - 33 <? n)%Z then "byte string is too large"
  else "".

End PyLib.

(* ================================================================= *)
(** ** BinaryContentInspector: [detect_binary] *)

Module Sniff.

(** [len(x)] as a float, and the float product [len(sample) * 0.30]. *)
Definition float_of_len (n : nat) : float :=
  PrimFloat.of_uint63 (Uint63.of_Z (Z.of_nat n)).

Definition thirty_percent (n : nat) : float :=
  PrimFloat.mul (float_of_len n) 0x1.3333333333333p-2%float.

(** [k > f] for an integer [k] and a float [f]: Python compares the
    two exact values. *)
Definition int_gt_float (k : Z) (f : float) : bool :=
  match Prim2SF f with
  | S754_zero _ => (0 <? k)%Z
  | S754_infinity s => s
  | S754_nan => false
  | S754_finite s m e =>
      let v := if s then Z.neg m else Z.pos m in
      if (0 <=? e)%Z then (v * 2 ^ e <? k)%Z else (v <? k * 2 ^ (- e))%Z
  end.

(** [text_chars]: [{7,8,9,10,12,13,27} | set(range(0x20, 0x100))]. *)
Definition text_chars : list N :=
  [7; 8; 9; 10; 12; 13; 27]%N ++ map N.of_nat (seq 32 224).

Definition is_text_char (b : byte) : bool :=
  existsb (N.eqb (Byte.to_N b)) text_chars.

(** [sample.translate(None, text_chars)]: the bytes that are left once
    the text characters are deleted. *)
Definition nontext (sample : list byte) : list byte :=
  List.filter (fun b => negb (is_text_char b)) sample.

Definition detect_binary (sample : list byte) : bool :=
  if existsb (Byte.eqb x00) sample then true
  else int_gt_float (Z.of_nat (List.length (nontext sample)))
                    (thirty_percent (List.length sample)).

End Sniff.

(* ================================================================= *)
(** ** Data objects *)

(** [NodeData]: what a tree node carries. *)
Record NodeData : Type :=
  mkNodeData { nd_path : Path; nd_selected : bool; nd_is_dir : bool }.

(** A node of the [Tree] widget: its data and its loaded children.  A
    node object is referred to by its address, the positions to follow
    from the root; its parent is the node one position shorter. *)
Inductive TreeNode : Type :=
| Node (data : NodeData) (children : list TreeNode).

Definition node_data (n : TreeNode) : NodeData :=
  match n with Node d _ => d end.

Definition node_children (n : TreeNode) : list TreeNode :=
  match n with Node _ cs => cs end.

Definition node_selected (n : TreeNode) : bool := nd_selected (node_data n).

Definition with_selected (v : bool) (d : NodeData) : NodeData :=
  mkNodeData (nd_path d) v (nd_is_dir d).

(** The application state: the tree and [node_index], the dictionary
    from paths to node objects. *)
Record App : Type :=
  mkApp { file_tree : TreeNode; node_index : gmap Path (list nat) }.

(** What the filesystem holds below the root at the time of a build. *)
Inductive file_content : Type :=
| Readable (bytes : list byte)
| Unreadable (msg : string).

Inductive entry : Type :=
| File (name : string) (content : file_content)
| Dir (name : string) (listing : option (list entry)).

Definition entry_name (e : entry) : string :=
  match e with File n _ => n | Dir n _ => n end.

Definition entry_is_dir (e : entry) : bool :=
  match e with Dir _ _ => true | File _ _ => false end.

Module Tree.

Fixpoint node_at (t : TreeNode) (a : list nat) : option TreeNode :=
  match a with
  | [] => Some t
  | i :: a' =>
      match node_children t !! i with
      | Some c => node_at c a'
      | None => None
      end
  end.

Fixpoint alter_at (f : TreeNode -> TreeNode) (a : list nat) (t : TreeNode) : TreeNode :=
  match a with
  | [] => f t
  | i :: a' => Node (node_data t) (alter (alter_at f a') i (node_children t))
  end.

(** [data.selected = v] on one node. *)
Definition set_own (v : bool) (n : TreeNode) : TreeNode :=
  Node (with_selected v (node_data n)) (node_children n).

(** [node.add(...)]: a new last child. *)
Definition add_last (c : TreeNode) (n : TreeNode) : TreeNode :=
  Node (node_data n) (node_children n ++ [c]).

(** The body of [set_node_selected]: the node, then each loaded child. *)
Fixpoint set_subtree (v : bool) (n : TreeNode) : TreeNode :=
  match n with
  | Node d cs => Node (with_selected v d) (map (set_subtree v) cs)
  end.

End Tree.

(* ================================================================= *)
(** ** The program *)

Section Program.

(** Library functions. *)
Variable fnmatchcase : string -> string -> bool.
Variable str_lower : string -> string.
Variable decode_utf8 : list byte -> option string.
Variable decode_utf8_replace : list byte -> string.

(** The platform's side of [fh.read(n)]: the largest length for which
    the library can allocate the result (it depends on the memory of
    the machine and is below [sys.maxsize]), and the text [str(e)] of
    the exception that a call with the length [n] raises. *)
Variable READ_MAX : Z.
Variable read_error : Z -> string.

(** Module-level configuration. *)
Variable ROOT : Path.
Variable EXCLUDES : list string.
Variable INCLUDE_HIDDEN : bool.
Variable MAX_BYTES : Z.
Variable READ_BINARY : bool.
Variable ICON_SELECTED : string.
Variable ICON_UNSELECTED : string.

(* --------------------------------------------------------------- *)
(** *** PathFilter *)

(** [list(parts[:i])[-1:]]: the last segment of a prefix, as a list. *)
Definition last_segment (pre : list string) : list string :=
  match rev pre with
  | [] => []
  | s :: _ => [s]
  end.

(** [str(sub).replace("\\", "/")] for [sub = Path( *parts[:i])]. *)
Definition rel_posix (pre : list string) : string :=
  Str.replace_char Str.backslash Str.slash (PathOps.str_rel pre).

(** The candidate set built in one round of the loop, as a list. *)
Definition candidates (parts : list string) (i : nat) : list string :=
  let pre := firstn i parts in
  let segs := last_segment pre in
  (match segs with s :: _ => [s] | [] => [] end)
  ++ (if Str.truthy (rel_posix pre) then [rel_posix pre] else []).

(** The inner [for pat in EXCLUDES: if any(...)] of one round. *)
Definition round_matches (parts : list string) (i : nat) : bool :=
  existsb (fun pat =>
             existsb (fun c => fnmatchcase c pat)
                     (List.filter Str.truthy (candidates parts i)))
          EXCLUDES.

(** [path_matches_excludes(path)]; [None] when [relative_to] raises. *)
Definition path_matches_excludes (path : Path) : option bool :=
  match (if decide (path = ROOT) then Some [] else PathOps.relative_to path ROOT) with
  | None => None
  | Some parts =>
      Some (existsb (round_matches parts) (seq 0 (List.length parts + 1)))
  end.

(** [is_hidden(path)]. *)
Definition is_hidden (path : Path) : bool :=
  existsb (fun part => Str.startswith part ".")
          (List.filter (fun part => negb (String.eqb part "."))
                  (PathOps.parts path)).

(** [should_skip(p)]. *)
Definition should_skip (p : Path) : option bool :=
  if negb INCLUDE_HIDDEN && is_hidden p then Some true
  else if decide (p = ROOT) then Some false
  else match path_matches_excludes p with
       | None => None
       | Some true => Some true
       | Some false => Some false
       end.


(* --------------------------------------------------------------- *)
(** *** Sorting of directory entries *)

(** The key [(not x.is_dir(), x.name.lower())] and the order on it. *)
Definition sort_key (is_dir : bool) (name : string) : bool * string :=
  (negb is_dir, str_lower name).

Definition key_le (k1 k2 : bool * string) : bool :=
  match fst k1, fst k2 with
  | false, true => true
  | true, false => false
  | _, _ => String.leb (snd k1) (snd k2)
  end.

Section Sorted.
Context {A : Type} (key : A -> bool * string).

Fixpoint insert_by (x : A) (l : list A) : list A :=
  match l with
  | [] => [x]
  | y :: r => if key_le (key x) (key y) then x :: l else y :: insert_by x r
  end.

(** [sorted(l, key=key)]: a stable sort. *)
Definition sorted (l : list A) : list A := fold_right insert_by [] l.
End Sorted.

(* --------------------------------------------------------------- *)
(** *** TreeModel *)

(** [compose]: the root node, selected, indexed at once. *)
Definition compose (root_is_dir : bool) : App :=
  mkApp (Node (mkNodeData ROOT true root_is_dir) []) {[ ROOT := [] ]}.

(** [find_node_by_path]. *)
Definition find_node_by_path (app : App) (path : Path) : option TreeNode :=
  match node_index app !! path with
  | Some a => Tree.node_at (file_tree app) a
  | None => None
  end.

(** One pass of the body of [populate_children]'s loop for an entry
    that is kept: the child inherits the parent's current selection
    and is entered in the index. *)
Definition add_child (app : App) (a : list nat) (child_path : Path) (is_dir : bool) : App :=
  match Tree.node_at (file_tree app) a with
  | None => app
  | Some node =>
      let child := Node (mkNodeData child_path (node_selected node) is_dir) [] in
      mkApp (Tree.alter_at (Tree.add_last child) a (file_tree app))
            (<[ child_path := a ++ [List.length (node_children node)] ]> (node_index app))
  end.

Fixpoint populate_loop (app : App) (a : list nat) (entries : list (Path * bool)) : option App :=
  match entries with
  | [] => Some app
  | (child_path, is_dir) :: rest =>
      match should_skip child_path with
      | None => None
      | Some true => populate_loop app a rest
      | Some false => populate_loop (add_child app a child_path is_dir) a rest
      end
  end.

(** [populate_children(node, path)], given what [path.iterdir()] returns
    (each entry with its [is_dir()]), [None] when the listing raises.
    The result is [None] when [should_skip] raises. *)
Definition populate_children (app : App) (a : list nat)
           (iterdir : option (list (Path * bool))) : option App :=
  match iterdir with
  | None => Some app
  | Some l =>
      populate_loop app a
        (sorted (fun x => sort_key (snd x) (PathOps.name (fst x))) l)
  end.

(** [on_tree_node_expanded]: populate only a node without children. *)
Definition on_tree_node_expanded (app : App) (a : list nat)
           (iterdir : option (list (Path * bool))) : option App :=
  match Tree.node_at (file_tree app) a with
  | Some (Node _ []) => populate_children app a iterdir
  | _ => Some app
  end.

(** [set_node_selected(node, selected)]. *)
Definition set_node_selected (app : App) (a : list nat) (v : bool) : App :=
  mkApp (Tree.alter_at (Tree.set_subtree v) a (file_tree app)) (node_index app).

(** [update_parent_selection(node)]; the argument is the address of
    [cur], nearest position first. *)
Fixpoint update_parent_loop (t : TreeNode) (rcur : list nat) : TreeNode :=
  match rcur with
  | [] => t
  | _ :: rparent =>
      match Tree.node_at t (rev rparent) with
      | None => t
      | Some parent =>
          match node_children parent with
          | [] => t
          | chs =>
              let all_selected := forallb node_selected chs in
              let all_unselected := forallb (fun ch => negb (node_selected ch)) chs in
              if all_selected || all_unselected then
                let new_val := all_selected in
                let t' :=
                  if Bool.eqb (node_selected parent) new_val then t
                  else Tree.alter_at (Tree.set_own new_val) (rev rparent) t in
                update_parent_loop t' rparent
              else t
          end
      end
  end.

Definition update_parent_selection (app : App) (a : list nat) : App :=
  mkApp (update_parent_loop (file_tree app) (rev a)) (node_index app).

(** [action_toggle] / [on_tree_node_selected] on the node at [a]. *)
Definition action_toggle (app : App) (a : list nat) : App :=
  match Tree.node_at (file_tree app) a with
  | None => app
  | Some node =>
      update_parent_selection
        (set_node_selected app a (negb (node_selected node))) a
  end.

Definition action_select_all (app : App) : App := set_node_selected app [] true.
Definition action_select_none (app : App) : App := set_node_selected app [] false.

(** [action_refresh]: [Tree.clear] keeps the root's data and drops its
    children; the index is reset to the root alone; the root is
    populated again. *)
Definition action_refresh (app : App) (iterdir : option (list (Path * bool))) : option App :=
  let root_selected := node_selected (file_tree app) in
  let root := Tree.set_own root_selected (Node (node_data (file_tree app)) []) in
  populate_children (mkApp root {[ ROOT := [] ]}) [] iterdir.

(** The loop of [is_selected_effective]; [None] when the rounds
    allowed are used up before it returns. *)
Fixpoint effective_loop (fuel : nat) (app : App) (cur : Path) : option bool :=
  match fuel with
  | O => None
  | S fuel' =>
      match find_node_by_path app cur with
      | Some node => Some (node_selected node)
      | None =>
          if decide (cur = ROOT) then Some true
          else effective_loop fuel' app (PathOps.parent cur)
      end
  end.

(** [is_selected_effective(path)].  The loop looks at [path] and its
    ancestors; once [cur] has no segment left it is its own parent, so
    a loop that has not returned after [len(tail) + 1] rounds never
    does.  That case has no value; the builder only asks about paths
    below [ROOT], where the loop returns. *)
Definition is_selected_effective (app : App) (path : Path) : bool :=
  match effective_loop (S (List.length (tail path))) app path with
  | Some b => b
  | None => true
  end.

(* --------------------------------------------------------------- *)
(** *** DocumentBuilder *)

Definition EXT_LANG : list (string * string) :=
  [ (".py", "python"); (".js", "javascript"); (".ts", "typescript");
    (".json", "json"); (".yml", "yaml"); (".yaml", "yaml");
    (".toml", "toml"); (".ini", "ini"); (".sh", "bash");
    (".md", "markdown"); (".html", "html"); (".css", "css");
    (".go", "go"); (".rs", "rust"); (".java", "java");
    (".c", "c"); (".h", "c"); (".cpp", "cpp"); (".hpp", "cpp");
    (".rb", "ruby"); (".php", "php") ].

Fixpoint dict_get (k : string) (d : list (string * string)) (default : string) : string :=
  match d with
  | [] => default
  | (k', v) :: r => if String.eqb k k' then v else dict_get k r default
  end.

(** [code_lang_for(path)]. *)
Definition code_lang_for (path : Path) : string :=
  dict_get (str_lower (PathOps.suffix path)) EXT_LANG "".

(** The list comprehension [[p for p in ... if not should_skip(p)]];
    [None] when [should_skip] raises on some entry. *)
Fixpoint keep_unskipped {X : Type} (path_of : X -> Path) (l : list X) : option (list X) :=
  match l with
  | [] => Some []
  | x :: r =>
      match should_skip (path_of x), keep_unskipped path_of r with
      | Some b, Some r' => Some (if b then r' else x :: r')
      | _, _ => None
      end
  end.

Definition branch (last : bool) : string := if last then "└── " else "├── ".
Definition indent (last : bool) : string := if last then "    " else "│   ".
Definition check (sel : bool) : string := if sel then ICON_SELECTED else ICON_UNSELECTED.

(** The line of an entry in the tree section. *)
Definition tree_line (prefix : string) (last sel : bool) (name : string) : string :=
  prefix +:+ branch last +:+ check sel +:+ " " +:+ name.

(** The body of the [for idx, p in enumerate(entries)] loop of
    [tree_lines]: the entry's own line when it is to be shown, then
    what the recursive call on it appends.  An entry comes with the
    recursive call on it, [snd x], still waiting for its arguments. *)
Definition tree_entry (app : App) (include_unselected : bool)
           (dir_path : Path) (prefix : string) (n idx : nat)
           (x : entry * (Path -> string -> list string)) : list string :=
  let p := PathOps.child dir_path (entry_name (fst x)) in
  let last := (idx =? n - 1)%nat in
  let sel := is_selected_effective app p in
  (if include_unselected || sel
   then [tree_line prefix last sel (PathOps.name p)] else [])
  ++ (if entry_is_dir (fst x) then snd x p (prefix +:+ indent last) else []).

Definition entry_key (x : entry * (Path -> string -> list string)) : bool * string :=
  sort_key (entry_is_dir (fst x)) (entry_name (fst x)).

(** [tree_lines(dir_path, prefix)], where [e] is what the filesystem
    holds at [dir_path]; the result is what the call appends to
    [lines].  The parameter [is_last] of the source is never read. *)
Fixpoint tree_lines (app : App) (include_unselected : bool) (e : entry)
         (dir_path : Path) (prefix : string) {struct e} : list string :=
  match e with
  | File _ _ => []
  | Dir _ None => []
  | Dir _ (Some es) =>
      match keep_unskipped
              (fun x => PathOps.child dir_path (entry_name (fst x)))
              (map (fun c => (c, tree_lines app include_unselected c)) es) with
      | None => []
      | Some kept =>
          let entries := sorted entry_key kept in
          concat (imap (tree_entry app include_unselected dir_path prefix
                                   (List.length entries)) entries)
      end
  end.

(** [iter_files(start)]: the files below [start], in the order the
    filesystem lists them. *)
Fixpoint iter_files (e : entry) (start : Path) {struct e} : list (Path * entry) :=
  match e with
  | File _ _ => []
  | Dir _ None => []
  | Dir _ (Some es) =>
      (fix loop (cs : list entry) : list (Path * entry) :=
         match cs with
         | [] => []
         | c :: r =>
             let p := PathOps.child start (entry_name c) in
             match should_skip p with
             | None => []
             | Some true => loop r
             | Some false =>
                 (if entry_is_dir c then iter_files c p else [(p, c)]) ++ loop r
             end
         end) es
  end.

(** [fh.read(n)] on what is left of the file, with what is left after
    the call: everything when [n] is [-1], at most [n] bytes when [n] is
    not negative.  The call raises, [None], when [n] is below [-1]
    ([ValueError]) and when [n] is past the length the platform can
    read at once ([OverflowError], [MemoryError]). *)
Definition fh_read (n : Z) (unread : list byte) : option (list byte * list byte) :=
  if (n <? -1)%Z then None
  else if (n =? -1)%Z then Some (unread, [])
  else if (READ_MAX <? n)%Z then None
  else Some (firstn (Z.to_nat n) unread, skipn (Z.to_nat n) unread).

(** [content[:k]]. *)
Definition slice_to (k : Z) (content : list byte) : list byte :=
  if (0 <=? k)%Z then firstn (Z.to_nat k) content
  else firstn (List.length content - Z.to_nat (- k)) content.

Definition binary_notice : string := "_Binary file — content not embedded._".
Definition truncation_notice : string :=
  "_...truncated at " +:+ Str.of_Z MAX_BYTES +:+ " bytes_".
Definition error_notice (msg : string) : string :=
  "_Error reading file: " +:+ msg +:+ "_".
Definition closing_fence : string := "```".

(** What follows the two reads in the [with] block: the lines appended
    for the bytes collected. *)
Definition embed_content (path : Path) (content : list byte) : list string :=
  let truncated := (MAX_BYTES <? Z.of_nat (List.length content))%Z in
  let content := if truncated then slice_to MAX_BYTES content else content in
  let text :=
    match decode_utf8 content with
    | Some t => t
    | None => decode_utf8_replace content
    end in
  let lang := code_lang_for path in
  let fence := if Str.truthy lang then "```" +:+ lang else "```" in
  [fence; Str.rstrip "010"%char text; closing_fence]
  ++ (if truncated then [truncation_notice] else []).

(** The [try] block for a file that can be opened and read: the lines it
    appends.  A call of [fh.read] that raises is caught by the
    [except Exception] of the block, which appends the error notice;
    nothing has been appended before either call. *)
Definition embed_file (path : Path) (bytes : list byte) : list string :=
  let n1 := Z.min (MAX_BYTES + 1) 8192 in
  match fh_read n1 bytes with
  | None => [error_notice (read_error n1)]
  | Some (sample, unread) =>
      let bin_file := Sniff.detect_binary sample in
      if bin_file && negb READ_BINARY then [binary_notice]
      else if (Z.of_nat (List.length sample) <=? 8192)%Z
      then
        let n2 := (MAX_BYTES + 1 - Z.of_nat (List.length sample))%Z in
        match fh_read n2 unread with
        | None => [error_notice (read_error n2)]
        | Some (rest, _) => embed_content path (sample ++ rest)
        end
      else embed_content path sample
  end.

(** The [try] block of the contents loop. *)
Definition read_lines (path : Path) (c : file_content) : list string :=
  match c with
  | Readable bytes => embed_file path bytes
  | Unreadable msg => [error_notice msg]
  end.

Definition section_header (rel : list string) : string :=
  Str.nl +:+ "### `" +:+ PathOps.as_posix_rel rel +:+ "`" +:+ Str.nl.

(** One round of the contents loop; [None] when [relative_to], which
    is outside the [try], raises. *)
Definition file_lines (app : App) (x : Path * entry) : option (list string) :=
  let '(path, e) := x in
  if negb (is_selected_effective app path) then Some []
  else
    match e with
    | Dir _ _ => Some []
    | File _ c =>
        match PathOps.relative_to path ROOT with
        | None => None
        | Some rel => Some (section_header rel :: read_lines path c)
        end
    end.

Fixpoint contents_lines (app : App) (files : list (Path * entry)) : option (list string) :=
  match files with
  | [] => Some []
  | x :: r =>
      match file_lines app x, contents_lines app r with
      | Some l, Some l' => Some (l ++ l')
      | _, _ => None
      end
  end.

Definition title_lines : list string :=
  [ "# File Tree for `" +:+ PathOps.name ROOT +:+ "`" +:+ Str.nl;
    PathOps.name ROOT ].

Definition contents_heading : list string :=
  [ Str.nl +:+ "---" +:+ Str.nl; "## Selected files" +:+ Str.nl ].

(** The lines [build_markdown] collects, for the filesystem content
    [root_listing] of [ROOT]. *)
Definition build_lines (app : App) (include_unselected : bool)
           (root_listing : option (list entry)) : option (list string) :=
  let root := Dir (PathOps.name ROOT) root_listing in
  match contents_lines app (iter_files root ROOT) with
  | None => None
  | Some contents =>
      Some (title_lines
            ++ tree_lines app include_unselected root ROOT ""
            ++ contents_heading
            ++ contents)
  end.


(* =============================================================== *)
(** ** Properties of the PathFilter *)

(** The loop of [path_matches_excludes] on the segments below the root. *)
Definition excluded_by_pattern (rel : list string) : bool :=
  existsb (round_matches rel) (seq 0 (List.length rel + 1)).

Lemma path_matches_excludes_under rel :
  path_matches_excludes (PathOps.under ROOT rel) = Some (excluded_by_pattern rel).
Proof.
  unfold path_matches_excludes, excluded_by_pattern.
  destruct (decide (PathOps.under ROOT rel = ROOT)) as [E|E].
  - apply PathOps.under_eq_root in E. subst rel. reflexivity.
  - rewrite PathOps.relative_to_under. reflexivity.
Qed.

Lemma should_skip_under rel :
  should_skip (PathOps.under ROOT rel)
  = Some ((negb INCLUDE_HIDDEN && is_hidden (PathOps.under ROOT rel))
          || (negb (bool_decide (rel = [])) && excluded_by_pattern rel)).
Proof.
  unfold should_skip.
  destruct (negb INCLUDE_HIDDEN && is_hidden (PathOps.under ROOT rel)); [reflexivity|].
  simpl. destruct (decide (PathOps.under ROOT rel = ROOT)) as [E|E].
  - apply PathOps.under_eq_root in E. subst rel. reflexivity.
  - rewrite path_matches_excludes_under.
    rewrite bool_decide_eq_false_2.
    + simpl. destruct (excluded_by_pattern rel); reflexivity.
    + intros ->. apply E. apply PathOps.under_nil.
Qed.

Lemma should_skip_under_Some rel :
  exists b, should_skip (PathOps.under ROOT rel) = Some b.
Proof. eexists. apply should_skip_under. Qed.

(** The round for the empty prefix tests the current-directory marker. *)
Lemma candidates_round_zero rel : candidates rel 0 = ["."].
Proof. reflexivity. Qed.

Lemma round_zero_matches rel :
  round_matches rel 0 = existsb (fun pat => fnmatchcase "." pat) EXCLUDES.
Proof.
  unfold round_matches. rewrite candidates_round_zero. simpl.
  induction EXCLUDES as [|pat l IH]; simpl; [reflexivity|].
  rewrite IH, orb_false_r. reflexivity.
Qed.

Lemma excluded_by_pattern_split rel :
  excluded_by_pattern rel
  = existsb (fun pat => fnmatchcase "." pat) EXCLUDES
    || existsb (round_matches rel) (seq 1 (List.length rel)).
Proof.
  unfold excluded_by_pattern.
  replace (List.length rel + 1) with (S (List.length rel)) by lia.
  simpl. rewrite round_zero_matches. reflexivity.
Qed.

Lemma dot_pattern_excludes rel :
  (exists pat, In pat EXCLUDES /\ fnmatchcase "." pat = true) ->
  excluded_by_pattern rel = true.
Proof.
  intros (pat & Hin & Hm). rewrite excluded_by_pattern_split.
  apply orb_true_iff. left. apply existsb_exists. eauto.
Qed.

Lemma dot_pattern_skips rel :
  rel <> [] ->
  (exists pat, In pat EXCLUDES /\ fnmatchcase "." pat = true) ->
  path_matches_excludes (PathOps.under ROOT rel) = Some true
  /\ should_skip (PathOps.under ROOT rel) = Some true.
Proof.
  intros Hrel Hpat. apply dot_pattern_excludes with (rel := rel) in Hpat.
  split.
  - rewrite path_matches_excludes_under, Hpat. reflexivity.
  - rewrite should_skip_under, Hpat, bool_decide_eq_false_2 by assumption.
    simpl. rewrite orb_true_r. reflexivity.
Qed.

(** *** The filter as the specification words it *)

(** Some component of the path starts with a dot. *)
Definition spec_is_hidden (p : Path) : bool :=
  existsb (fun part => Str.startswith part ".") (PathOps.parts p).

(** The path or an ancestor of it below the root matches a pattern, by
    its last segment or by its root-relative slash-separated subpath. *)
Definition spec_prefix_matches (rel : list string) (i : nat) : bool :=
  let pre := firstn i rel in
  existsb (fun pat =>
             fnmatchcase (List.last pre "") pat
             || fnmatchcase (rel_posix pre) pat)
          EXCLUDES.

Definition spec_is_excluded (rel : list string) : bool :=
  existsb (spec_prefix_matches rel) (seq 1 (List.length rel)).

Definition spec_should_skip (rel : list string) : bool :=
  (negb INCLUDE_HIDDEN && spec_is_hidden (PathOps.under ROOT rel))
  || (negb (bool_decide (rel = [])) && spec_is_excluded rel).

Definition segment (s : string) : Prop := s <> "" /\ s <> ".".

Lemma join_truthy (pre : list string) :
  pre <> [] -> Forall segment pre -> Str.truthy (Str.join "/" pre) = true.
Proof.
  intros Hne Hall. destruct pre as [|s pre]; [congruence|].
  apply Forall_cons_1 in Hall as [[Hs _] _].
  simpl. destruct pre; destruct s; simpl; congruence.
Qed.

Lemma existsb_ext_in {A} (f g : A -> bool) (l : list A) :
  (forall x, In x l -> f x = g x) -> existsb f l = existsb g l.
Proof.
  induction l as [|a l IH]; simpl; intros H; [reflexivity|].
  rewrite H by auto. rewrite IH by auto. reflexivity.
Qed.

Lemma round_spec rel i :
  Forall segment rel -> 1 <= i <= List.length rel ->
  round_matches rel i = spec_prefix_matches rel i.
Proof.
  intros Hall Hi. unfold round_matches, spec_prefix_matches, candidates.
  set (pre := firstn i rel).
  assert (Hpre : Forall segment pre) by (apply Forall_take; exact Hall).
  assert (Hne : pre <> []).
  { unfold pre. intros E. apply (f_equal (@List.length _)) in E.
    rewrite length_firstn in E. simpl in E. lia. }
  destruct (exists_last Hne) as (pre0 & s & Epre).
  assert (Hs : segment s).
  { rewrite Epre in Hpre. apply Forall_app in Hpre as [_ Hs].
    now apply Forall_inv in Hs. }
  assert (Ht : Str.truthy (rel_posix pre) = true).
  { unfold rel_posix. rewrite Str.replace_char_truthy.
    unfold PathOps.str_rel. destruct pre as [|x pre']; [congruence|].
    apply join_truthy; assumption. }
  assert (Hst : Str.truthy s = true).
  { destruct s; [destruct Hs; congruence | reflexivity]. }
  assert (El : last_segment pre = [s]).
  { unfold last_segment. rewrite Epre, rev_unit. reflexivity. }
  assert (Ell : List.last pre "" = s).
  { rewrite Epre. apply last_last. }
  rewrite El, Ell, Ht. simpl. rewrite Hst, Ht. simpl.
  apply existsb_ext_in. intros pat _. rewrite orb_false_r. reflexivity.
Qed.

Lemma is_hidden_spec p :
  ~ In "." (PathOps.parts p) -> is_hidden p = spec_is_hidden p.
Proof using Type.
  unfold is_hidden, spec_is_hidden. intros H.
  induction (PathOps.parts p) as [|a l IH]; simpl; [reflexivity|].
  simpl in H. destruct (String.eqb a ".") eqn:E.
  - apply String.eqb_eq in E. subst a. exfalso. apply H. left. reflexivity.
  - simpl. rewrite IH; [reflexivity|]. intros Hin. apply H. right. exact Hin.
Qed.

(** What [should_skip] computes below the root: the specified filter,
    or a pattern matching the current-directory marker. *)
Lemma should_skip_characterised rel :
  Forall segment rel ->
  ~ In "." (PathOps.parts (PathOps.under ROOT rel)) ->
  should_skip (PathOps.under ROOT rel)
  = Some (spec_should_skip rel
          || (negb (bool_decide (rel = []))
              && existsb (fun pat => fnmatchcase "." pat) EXCLUDES)).
Proof.
  intros Hseg Hdot. rewrite should_skip_under. f_equal.
  unfold spec_should_skip. rewrite is_hidden_spec by assumption.
  rewrite excluded_by_pattern_split.
  replace (existsb (round_matches rel) (seq 1 (List.length rel)))
    with (spec_is_excluded rel).
  - destruct (negb INCLUDE_HIDDEN && spec_is_hidden (PathOps.under ROOT rel)),
      (negb (bool_decide (rel = []))),
      (existsb (fun pat => fnmatchcase "." pat) EXCLUDES),
      (spec_is_excluded rel); reflexivity.
  - unfold spec_is_excluded. symmetry. apply existsb_ext_in.
    intros i Hi. apply in_seq in Hi. apply round_spec; [assumption|lia].
Qed.

(* =============================================================== *)
(** ** Properties of the BinaryContentInspector *)

(** The float product [len(sample) * 0.30] sits, for every length the
    builder can pass, between [3n/10] rounded down and the next
    integer; the check is run for lengths up to 8192, the size of the
    largest sample. *)
Definition thirty_ok (n : nat) : bool :=
  match Prim2SF (Sniff.thirty_percent n) with
  | S754_zero _ => (n =? 0)%nat
  | S754_finite false m e =>
      let q := (3 * Z.of_nat n / 10)%Z in
      ((e <? 0) && (q * 2 ^ (- e) <=? Z.pos m) && (Z.pos m <? (q + 1) * 2 ^ (- e)))%Z
  | _ => false
  end.

Lemma thirty_ok_upto : forallb thirty_ok (seq 0 (Z.to_nat 8193)) = true.
Proof. vm_compute. reflexivity. Qed.

Lemma thirty_percent_exact (n : nat) (k : Z) :
  (Z.of_nat n <= 8192)%Z ->
  Sniff.int_gt_float k (Sniff.thirty_percent n) = (3 * Z.of_nat n <? 10 * k)%Z.
Proof.
  intros Hn.
  assert (Hok : thirty_ok n = true).
  { pose proof thirty_ok_upto as H. rewrite forallb_forall in H.
    apply H. apply in_seq. lia. }
  unfold thirty_ok in Hok. unfold Sniff.int_gt_float.
  destruct (Prim2SF (Sniff.thirty_percent n)) as [s| | |s m e]; try discriminate.
  - apply Nat.eqb_eq in Hok. subst n. change (3 * Z.of_nat 0)%Z with 0%Z.
    destruct (Z.ltb_spec 0 k), (Z.ltb_spec 0 (10 * k)); try reflexivity; lia.
  - destruct s; [discriminate|].
    apply andb_true_iff in Hok as [Hok H3].
    apply andb_true_iff in Hok as [H1 H2].
    apply Z.ltb_lt in H1, H3. apply Z.leb_le in H2.
    assert (E : (0 <=? e)%Z = false) by (apply Z.leb_gt; lia).
    rewrite E.
    set (q := (3 * Z.of_nat n / 10)%Z) in *.
    set (w := (2 ^ (- e))%Z) in *.
    assert (Hw : (0 < w)%Z) by (apply Z.pow_pos_nonneg; lia).
    assert (Hq : (10 * q <= 3 * Z.of_nat n < 10 * q + 10)%Z).
    { unfold q. pose proof (Z.mul_div_le (3 * Z.of_nat n) 10).
      pose proof (Z.mul_succ_div_gt (3 * Z.of_nat n) 10). lia. }
    destruct (3 * Z.of_nat n <? 10 * k)%Z eqn:E2.
    + apply Z.ltb_lt in E2. apply Z.ltb_lt.
      assert ((q + 1) <= k)%Z by lia. nia.
    + apply Z.ltb_ge in E2. apply Z.ltb_ge.
      assert (k <= q)%Z by lia. nia.
Qed.

Lemma has_null_iff (sample : list byte) :
  existsb (Byte.eqb x00) sample = true <-> In x00 sample.
Proof.
  rewrite existsb_exists. split.
  - intros (b & Hin & Hb). apply Byte.byte_dec_bl in Hb. now subst b.
  - intros Hin. exists x00. split; [assumption|reflexivity].
Qed.

(** The allow-list of the code, spelled out. *)
Lemma is_text_char_spec (b : byte) :
  Sniff.is_text_char b
  = (let n := Byte.to_N b in
     existsb (N.eqb n) [7; 8; 9; 10; 12; 13; 27]%N || (32 <=? n)%N && (n <=? 255)%N).
Proof. destruct b; vm_compute; reflexivity. Qed.

(** The classifier as the specification words it: a null byte, or more
    than 30% of the bytes outside tab, newline, form feed, carriage
    return, escape and 0x20-0xFF. *)
Definition spec_allowed (b : byte) : bool :=
  let n := Byte.to_N b in
  existsb (N.eqb n) [9; 10; 12; 13; 27]%N || (32 <=? n)%N && (n <=? 255)%N.

Definition spec_sniff (sample : list byte) : bool :=
  existsb (Byte.eqb x00) sample
  || (3 * Z.of_nat (List.length sample)
      <? 10 * Z.of_nat (List.length (List.filter (fun b => negb (spec_allowed b)) sample)))%Z.

(* =============================================================== *)
(** ** Properties of the TreeModel *)

(** *** Addresses *)

Lemma node_eta (n : TreeNode) : Node (node_data n) (node_children n) = n.
Proof. destruct n; reflexivity. Qed.

Lemma node_at_app t a b :
  Tree.node_at t (a ++ b) = Tree.node_at t a ≫= fun n => Tree.node_at n b.
Proof.
  revert t; induction a as [|i a IH]; intros t; simpl; [reflexivity|].
  destruct (node_children t !! i); simpl; [apply IH|reflexivity].
Qed.

Lemma node_at_alter_here f a t :
  Tree.node_at (Tree.alter_at f a t) a = f <$> Tree.node_at t a.
Proof.
  revert t; induction a as [|i a IH]; intros t; simpl; [reflexivity|].
  rewrite list_lookup_alter_eq.
  destruct (node_children t !! i); simpl; [apply IH|reflexivity].
Qed.

Lemma node_at_alter_below f a b t :
  Tree.node_at (Tree.alter_at f a t) (a ++ b)
  = Tree.node_at t a ≫= fun n => Tree.node_at (f n) b.
Proof.
  rewrite node_at_app, node_at_alter_here.
  destruct (Tree.node_at t a); reflexivity.
Qed.

Lemma alter_at_fixed f a t n :
  Tree.node_at t a = Some n -> f n = n -> Tree.alter_at f a t = t.
Proof.
  revert t; induction a as [|i a IH]; intros t Hn Hf; simpl in *.
  - congruence.
  - destruct t as [d cs]; simpl in *.
    destruct (cs !! i) as [c|] eqn:Ec; [|discriminate].
    f_equal. apply list_eq. intros j. destruct (decide (i = j)) as [->|Hne].
    + rewrite list_lookup_alter_eq, Ec. simpl. f_equal. now apply IH.
    + now rewrite list_lookup_alter_ne.
Qed.

(** A function on nodes that keeps every address below a node valid. *)
Definition keeps_addresses (f : TreeNode -> TreeNode) : Prop :=
  forall n b, is_Some (Tree.node_at n b) -> is_Some (Tree.node_at (f n) b).

Lemma alter_at_keeps_addresses f a :
  keeps_addresses f -> keeps_addresses (Tree.alter_at f a).
Proof.
  intros Hf. induction a as [|i a IH]; intros t b Hb; simpl; [now apply Hf|].
  destruct b as [|j b]; simpl in *; [eauto|].
  destruct (decide (i = j)) as [->|Hne].
  - rewrite list_lookup_alter_eq.
    destruct (node_children t !! j); simpl; [now apply IH|assumption].
  - now rewrite list_lookup_alter_ne.
Qed.

Lemma set_own_children v n : node_children (Tree.set_own v n) = node_children n.
Proof. reflexivity. Qed.

Lemma node_at_same_children n n' b :
  node_children n' = node_children n -> b <> [] ->
  Tree.node_at n' b = Tree.node_at n b.
Proof. intros E Hb. destruct b; [congruence|]. simpl. now rewrite E. Qed.

Lemma set_own_keeps v : keeps_addresses (Tree.set_own v).
Proof.
  intros n b Hb. destruct b as [|j b]; [simpl; eauto|].
  now rewrite (node_at_same_children n) by (reflexivity || congruence).
Qed.

Lemma add_last_keeps c : keeps_addresses (Tree.add_last c).
Proof.
  intros n b Hb. destruct b as [|j b]; simpl in *; [eauto|].
  destruct (node_children n !! j) eqn:E; [|destruct Hb; discriminate].
  rewrite lookup_app_l by (eapply lookup_lt_Some; eauto).
  now rewrite E.
Qed.

Lemma set_subtree_children v n :
  node_children (Tree.set_subtree v n) = map (Tree.set_subtree v) (node_children n).
Proof. destruct n; reflexivity. Qed.

Lemma node_at_set_subtree v t a :
  Tree.node_at (Tree.set_subtree v t) a = Tree.set_subtree v <$> Tree.node_at t a.
Proof.
  revert t; induction a as [|i a IH]; intros t; simpl; [reflexivity|].
  rewrite set_subtree_children.
  change (map (Tree.set_subtree v) (node_children t))
    with (Tree.set_subtree v <$> node_children t).
  rewrite list_lookup_fmap.
  destruct (node_children t !! i); simpl; [apply IH|reflexivity].
Qed.

Lemma set_subtree_selected v n : node_selected (Tree.set_subtree v n) = v.
Proof. destruct n; reflexivity. Qed.

Lemma set_subtree_keeps v : keeps_addresses (Tree.set_subtree v).
Proof.
  intros n b [x Hb]. rewrite node_at_set_subtree, Hb. simpl. eauto.
Qed.

Lemma set_subtree_path v n :
  nd_path (node_data (Tree.set_subtree v n)) = nd_path (node_data n).
Proof. destruct n; reflexivity. Qed.

(** *** The invariant of the application state *)

Definition below_root (p : Path) : Prop := exists rel, p = PathOps.under ROOT rel.

(** Every node of a tree carries a path below the root. *)
Definition all_below (t : TreeNode) : Prop :=
  forall b m, Tree.node_at t b = Some m -> below_root (nd_path (node_data m)).

(** The root is indexed; an index entry refers to a node of the tree;
    the index and the nodes only know paths below the root. *)
Record wf (app : App) : Prop := mk_wf {
  wf_root : node_index app !! ROOT = Some [];
  wf_sound : forall p a, node_index app !! p = Some a ->
                         is_Some (Tree.node_at (file_tree app) a);
  wf_keys : forall p a, node_index app !! p = Some a -> below_root p;
  wf_paths : all_below (file_tree app)
}.

Lemma below_root_ROOT : below_root ROOT.
Proof. exists []. symmetry. apply PathOps.under_nil. Qed.

Lemma below_root_child p seg : below_root p -> below_root (PathOps.child p seg).
Proof. intros [rel ->]. exists (rel ++ [seg]). apply PathOps.child_under. Qed.

Lemma child_not_ROOT p seg : below_root p -> PathOps.child p seg <> ROOT.
Proof.
  intros [rel ->] E. rewrite PathOps.child_under in E.
  apply PathOps.under_eq_root in E. now destruct rel.
Qed.

Lemma all_below_child t i c :
  all_below t -> node_children t !! i = Some c -> all_below c.
Proof. intros H Hc b m Hb. apply (H (i :: b)). simpl. now rewrite Hc. Qed.

Lemma all_below_alter f a t :
  (forall n, all_below n -> all_below (f n)) ->
  all_below t -> all_below (Tree.alter_at f a t).
Proof.
  intros Hf. revert t. induction a as [|i a IH]; intros t Ht; simpl; [auto|].
  intros b m Hb. destruct b as [|j b]; simpl in Hb.
  - injection Hb as <-. simpl. apply (Ht [] t). reflexivity.
  - destruct (decide (i = j)) as [->|Hne].
    + rewrite list_lookup_alter_eq in Hb.
      destruct (node_children t !! j) as [c|] eqn:Ec; simpl in Hb; [|discriminate].
      eapply IH; [|exact Hb]. eapply all_below_child; eauto.
    + rewrite list_lookup_alter_ne in Hb by assumption.
      apply (Ht (j :: b)). exact Hb.
Qed.

Lemma all_below_set_own v n : all_below n -> all_below (Tree.set_own v n).
Proof.
  intros H b m Hb. destruct b as [|j b].
  - injection Hb as <-. simpl. apply (H [] n). reflexivity.
  - apply (H (j :: b)). exact Hb.
Qed.

Lemma all_below_set_subtree v n : all_below n -> all_below (Tree.set_subtree v n).
Proof.
  intros H b m Hb. rewrite node_at_set_subtree in Hb.
  destruct (Tree.node_at n b) as [m'|] eqn:E; [|discriminate].
  injection Hb as <-. rewrite set_subtree_path. eapply H; eauto.
Qed.

Lemma all_below_add_last c n :
  all_below c -> all_below n -> all_below (Tree.add_last c n).
Proof.
  intros Hc H b m Hb. destruct b as [|j b]; simpl in Hb.
  - injection Hb as <-. simpl. apply (H [] n). reflexivity.
  - destruct (decide (j < List.length (node_children n))) as [Hlt|Hge].
    + rewrite lookup_app_l in Hb by assumption. apply (H (j :: b)). exact Hb.
    + rewrite lookup_app_r in Hb by lia.
      destruct (j - List.length (node_children n)) as [|k]; simpl in Hb.
      * eapply Hc; eauto.
      * discriminate.
Qed.

Lemma all_below_leaf d : below_root (nd_path d) -> all_below (Node d []).
Proof.
  intros H b m Hb. destruct b as [|j b]; simpl in Hb; [|discriminate].
  now injection Hb as <-.
Qed.

Lemma wf_compose d : wf (compose d).
Proof.
  split; simpl.
  - apply lookup_singleton_eq.
  - intros p a H. apply lookup_singleton_Some in H as [_ <-]. simpl. eauto.
  - intros p a H. apply lookup_singleton_Some in H as [<- _]. apply below_root_ROOT.
  - apply all_below_leaf. apply below_root_ROOT.
Qed.

(** An operation that rewrites the tree in place and leaves the index
    alone keeps the invariant. *)
Lemma wf_alter app f a :
  keeps_addresses f -> (forall n, all_below n -> all_below (f n)) ->
  wf app -> wf (mkApp (Tree.alter_at f a (file_tree app)) (node_index app)).
Proof.
  intros Hk Hb [H1 H2 H3 H4]. split; simpl; auto.
  - intros p b Hp. apply alter_at_keeps_addresses; eauto.
  - now apply all_below_alter.
Qed.

Lemma wf_set_node_selected app a v : wf app -> wf (set_node_selected app a v).
Proof.
  apply wf_alter; [apply set_subtree_keeps|intros n; apply all_below_set_subtree].
Qed.

Lemma wf_update_parent_loop idx rcur t :
  wf (mkApp t idx) -> wf (mkApp (update_parent_loop t rcur) idx).
Proof.
  revert t. induction rcur as [|x rparent IH]; intros t Hwf; simpl; [assumption|].
  destruct (Tree.node_at t (rev rparent)) as [parent|]; [|assumption].
  destruct (node_children parent) as [|c0 cs]; [assumption|].
  match goal with
  | |- wf (mkApp (if ?c then _ else _) _) => destruct c; [|assumption]
  end.
  apply IH.
  match goal with
  | |- wf (mkApp (if ?c then _ else _) _) => destruct c; [assumption|]
  end.
  apply (wf_alter (mkApp t idx)); [apply set_own_keeps| |assumption].
  intros n. apply all_below_set_own.
Qed.

Lemma wf_update_parent_selection app a : wf app -> wf (update_parent_selection app a).
Proof. destruct app as [t idx]. apply wf_update_parent_loop. Qed.

Lemma wf_action_toggle app a : wf app -> wf (action_toggle app a).
Proof.
  intros H. unfold action_toggle.
  destruct (Tree.node_at (file_tree app) a); [|assumption].
  apply wf_update_parent_selection, wf_set_node_selected, H.
Qed.

Lemma wf_add_child app a child_path is_dir :
  wf app -> below_root child_path -> child_path <> ROOT ->
  wf (add_child app a child_path is_dir).
Proof.
  intros Hwf Hbelow Hne. unfold add_child.
  destruct (Tree.node_at (file_tree app) a) as [node|] eqn:En; [|assumption].
  destruct Hwf as [H1 H2 H3 H4]. split; simpl.
  - rewrite lookup_insert_ne by assumption. exact H1.
  - intros p b Hp. destruct (decide (child_path = p)) as [->|Hp'].
    + rewrite lookup_insert_eq in Hp. injection Hp as <-.
      rewrite node_at_alter_below, En. simpl.
      rewrite list_lookup_middle by reflexivity. simpl. eauto.
    + rewrite lookup_insert_ne in Hp by assumption.
      apply alter_at_keeps_addresses; [apply add_last_keeps|eauto].
  - intros p b Hp. destruct (decide (child_path = p)) as [->|Hp'].
    + assumption.
    + rewrite lookup_insert_ne in Hp by assumption. eauto.
  - apply all_below_alter; [|assumption].
    intros n. apply all_below_add_last. now apply all_below_leaf.
Qed.

(** The entries a listing of [path] can hold: children of [path]. *)
Definition lists (path : Path) (l : list (Path * bool)) : Prop :=
  Forall (fun x => exists seg, fst x = PathOps.child path seg) l.

Lemma populate_loop_wf entries : forall app a path,
  wf app -> below_root path -> lists path entries ->
  exists app', populate_loop app a entries = Some app' /\ wf app'.
Proof.
  induction entries as [|[child_path is_dir] rest IH]; intros app a path Hwf Hp Hl; simpl.
  - eauto.
  - apply Forall_cons_1 in Hl as [[seg Hc] Hl]. simpl in Hc. subst child_path.
    destruct (below_root_child path seg Hp) as [rel Hrel].
    rewrite Hrel. rewrite should_skip_under. rewrite <- Hrel.
    destruct (_ || _); [now apply (IH app a path)|].
    apply (IH _ a path); [|assumption|assumption].
    apply wf_add_child; [assumption| |].
    + now apply below_root_child.
    + now apply child_not_ROOT.
Qed.

Lemma insert_by_perm {A} (key : A -> bool * string) x l :
  insert_by key x l ≡ₚ x :: l.
Proof.
  induction l as [|y r IH]; simpl; [reflexivity|].
  destruct (key_le (key x) (key y)); [reflexivity|].
  rewrite IH. apply perm_swap.
Qed.

Lemma sorted_perm {A} (key : A -> bool * string) l : sorted key l ≡ₚ l.
Proof.
  induction l as [|x l IH]; simpl; [reflexivity|].
  rewrite insert_by_perm. now rewrite IH.
Qed.

Lemma populate_children_wf app a path iterdir :
  wf app -> below_root path ->
  match iterdir with Some l => lists path l | None => True end ->
  exists app', populate_children app a iterdir = Some app' /\ wf app'.
Proof.
  intros Hwf Hp Hl. destruct iterdir as [l|]; simpl; [|eauto].
  eapply populate_loop_wf; eauto.
  unfold lists. now rewrite sorted_perm.
Qed.

Lemma action_refresh_wf app iterdir :
  wf app ->
  match iterdir with Some l => lists ROOT l | None => True end ->
  exists app', action_refresh app iterdir = Some app' /\ wf app'.
Proof.
  intros Hwf Hl. unfold action_refresh.
  eapply populate_children_wf; [|apply below_root_ROOT|exact Hl].
  split; simpl.
  - apply lookup_singleton_eq.
  - intros p a H. apply lookup_singleton_Some in H as [_ <-]. simpl. eauto.
  - intros p a H. apply lookup_singleton_Some in H as [<- _]. apply below_root_ROOT.
  - apply all_below_leaf. simpl. apply (wf_paths _ Hwf []). reflexivity.
Qed.

(** The states the application can be in: it starts from [compose];
    a node is expanded, with the listing of its path; a node is
    toggled; everything is selected or deselected; the tree is
    refreshed, with the listing of the root. *)
Inductive reachable : App -> Prop :=
| reach_compose d : reachable (compose d)
| reach_expand app a node iterdir app' :
    reachable app ->
    Tree.node_at (file_tree app) a = Some node ->
    match iterdir with
    | Some l => lists (nd_path (node_data node)) l
    | None => True
    end ->
    on_tree_node_expanded app a iterdir = Some app' ->
    reachable app'
| reach_toggle app a : reachable app -> reachable (action_toggle app a)
| reach_select_all app : reachable app -> reachable (action_select_all app)
| reach_select_none app : reachable app -> reachable (action_select_none app)
| reach_refresh app iterdir app' :
    reachable app ->
    match iterdir with Some l => lists ROOT l | None => True end ->
    action_refresh app iterdir = Some app' ->
    reachable app'.

Lemma reachable_wf app : reachable app -> wf app.
Proof.
  induction 1 as [d|app a node iterdir app' _ IH Hn Hl He|app a _ IH
                  |app _ IH|app _ IH|app iterdir app' _ IH Hl He].
  - apply wf_compose.
  - unfold on_tree_node_expanded in He. rewrite Hn in He.
    destruct node as [d [|c cs]]; [|now injection He as <-].
    destruct (populate_children_wf app a (nd_path d) iterdir IH) as (x & Hx & Hwf).
    + apply (wf_paths _ IH a _ Hn).
    + exact Hl.
    + congruence.
  - now apply wf_action_toggle.
  - now apply wf_set_node_selected.
  - now apply wf_set_node_selected.
  - destruct (action_refresh_wf app iterdir IH Hl) as (x & Hx & Hwf). congruence.
Qed.

(** Expanding and refreshing never raise. *)
Lemma expand_returns app a node iterdir :
  wf app ->
  Tree.node_at (file_tree app) a = Some node ->
  match iterdir with
  | Some l => lists (nd_path (node_data node)) l
  | None => True
  end ->
  exists app', on_tree_node_expanded app a iterdir = Some app'.
Proof.
  intros Hwf Hn Hl. unfold on_tree_node_expanded. rewrite Hn.
  destruct node as [d [|c cs]]; [|eauto].
  destruct (populate_children_wf app a (nd_path d) iterdir Hwf) as (x & Hx & _); eauto.
  apply (wf_paths _ Hwf a _ Hn).
Qed.

(** *** Effective selection *)

(** Below the root the loop returns, and more rounds do not change
    what it returns. *)
Lemma effective_loop_returns app rel :
  exists b, forall fuel,
    List.length rel < fuel ->
    effective_loop fuel app (PathOps.under ROOT rel) = Some b.
Proof.
  induction rel as [|s rel' [b' IH]] using rev_ind.
  - rewrite PathOps.under_nil.
    destruct (find_node_by_path app ROOT) as [node|] eqn:E.
    + exists (node_selected node). intros [|f] Hf; [simpl in Hf; lia|].
      simpl. now rewrite E.
    + exists true. intros [|f] Hf; [simpl in Hf; lia|].
      simpl. rewrite E. now rewrite decide_True.
  - destruct (find_node_by_path app (PathOps.under ROOT (rel' ++ [s]))) as [node|] eqn:E.
    + exists (node_selected node). intros [|f] Hf; [lia|]. simpl. now rewrite E.
    + exists b'. intros [|f] Hf; [lia|]. simpl. rewrite E.
      rewrite decide_False.
      * rewrite PathOps.parent_under_snoc. apply IH.
        rewrite length_app in Hf. simpl in Hf. lia.
      * intros H. apply PathOps.under_eq_root in H. now destruct rel'.
Qed.

Lemma is_selected_effective_loop app rel b fuel :
  List.length rel < fuel ->
  effective_loop fuel app (PathOps.under ROOT rel) = Some b ->
  is_selected_effective app (PathOps.under ROOT rel) = b.
Proof.
  intros Hf H. destruct (effective_loop_returns app rel) as [b0 Hb0].
  rewrite Hb0 in H by assumption. injection H as <-.
  unfold is_selected_effective. rewrite Hb0; [reflexivity|].
  simpl. rewrite length_app. lia.
Qed.

(** When the root is indexed and every indexed node carries [v], the
    effective selection is [v] everywhere below the root. *)
Lemma effective_loop_uniform app v rel fuel :
  is_Some (find_node_by_path app ROOT) ->
  (forall p n, find_node_by_path app p = Some n -> node_selected n = v) ->
  List.length rel < fuel ->
  effective_loop fuel app (PathOps.under ROOT rel) = Some v.
Proof.
  intros [r Hr] Hall. revert fuel.
  induction rel as [|s rel' IH] using rev_ind; intros [|f] Hf; try (simpl in Hf; lia).
  - rewrite PathOps.under_nil. simpl. rewrite Hr. f_equal. eapply Hall; eauto.
  - simpl.
    destruct (find_node_by_path app (PathOps.under ROOT (rel' ++ [s]))) as [node|] eqn:E.
    + f_equal. eapply Hall; eauto.
    + rewrite decide_False.
      * rewrite PathOps.parent_under_snoc. apply IH.
        rewrite length_app in Hf. simpl in Hf. lia.
      * intros H. apply PathOps.under_eq_root in H. now destruct rel'.
Qed.

Lemma find_after_set_root app v p :
  find_node_by_path (set_node_selected app [] v) p
  = Tree.set_subtree v <$> find_node_by_path app p.
Proof.
  unfold find_node_by_path, set_node_selected. simpl.
  destruct (node_index app !! p) as [a|]; [|reflexivity].
  apply node_at_set_subtree.
Qed.

Lemma set_root_effective app v rel fuel :
  wf app -> List.length rel < fuel ->
  effective_loop fuel (set_node_selected app [] v) (PathOps.under ROOT rel) = Some v.
Proof.
  intros Hwf Hf. apply effective_loop_uniform; [| |assumption].
  - rewrite find_after_set_root. unfold find_node_by_path.
    rewrite (wf_root _ Hwf). simpl. eauto.
  - intros p n Hn. rewrite find_after_set_root in Hn.
    destruct (find_node_by_path app p); [|discriminate].
    injection Hn as <-. apply set_subtree_selected.
Qed.

(** Outside the root subtree nothing is indexed and the root is never
    met: no number of rounds is enough. *)
Lemma parent_below_root p : below_root (PathOps.parent p) -> below_root p.
Proof.
  destruct p as [an tl]. unfold PathOps.parent. simpl.
  induction tl as [|s tl' _] using rev_ind.
  - trivial.
  - rewrite removelast_last. intros [rel H]. exists (rel ++ [s]).
    unfold PathOps.under in *. simpl in *. injection H as -> ->.
    now rewrite app_assoc.
Qed.

Lemma effective_loop_outside app p :
  wf app -> ~ below_root p -> forall fuel, effective_loop fuel app p = None.
Proof.
  intros Hwf Hp fuel. revert p Hp.
  induction fuel as [|f IH]; intros p Hp; simpl; [reflexivity|].
  unfold find_node_by_path.
  destruct (node_index app !! p) as [a|] eqn:E.
  - exfalso. apply Hp. eapply wf_keys; eauto.
  - rewrite decide_False.
    + apply IH. intros H. apply Hp. now apply parent_below_root.
    + intros ->. apply Hp. apply below_root_ROOT.
Qed.

(** C6.  After [action_select_all] (that is [set_node_selected] on the
    root with [True]) the effective selection of every path below the
    root, indexed or not, is [True]: the loop returns [True] as soon
    as it is given enough rounds, and so does [is_selected_effective];
    after [action_select_none] it is [False]. *)
Theorem select_all_none_effective app rel :
  reachable app ->
  action_select_all app = set_node_selected app [] true
  /\ (forall fuel, List.length rel < fuel ->
        effective_loop fuel (action_select_all app) (PathOps.under ROOT rel) = Some true)
  /\ is_selected_effective (action_select_all app) (PathOps.under ROOT rel) = true
  /\ (forall fuel, List.length rel < fuel ->
        effective_loop fuel (action_select_none app) (PathOps.under ROOT rel) = Some false)
  /\ is_selected_effective (action_select_none app) (PathOps.under ROOT rel) = false.
Proof.
  intros Hr. apply reachable_wf in Hr.
  split; [reflexivity|]. repeat split.
  - intros fuel Hf. now apply set_root_effective.
  - apply (is_selected_effective_loop _ _ _ (S (List.length rel))); [lia|].
    apply set_root_effective; [assumption|lia].
  - intros fuel Hf. now apply set_root_effective.
  - apply (is_selected_effective_loop _ _ _ (S (List.length rel))); [lia|].
    apply set_root_effective; [assumption|lia].
Qed.

(** C10.  In every state the application reaches, the root is in the
    index (it is put there by [compose] and again by every refresh);
    for the root and every path below it the loop of
    [is_selected_effective] returns a boolean once it is given more
    rounds than the path has segments below the root; for a path that
    is not below the root, where no node is indexed, no number of
    rounds makes it return, a path without segments being its own
    parent. *)
Theorem effective_selection_terminates_below_root app :
  reachable app ->
  find_node_by_path app ROOT = Some (file_tree app)
  /\ (forall rel, exists b, forall fuel,
        List.length rel < fuel ->
        effective_loop fuel app (PathOps.under ROOT rel) = Some b)
  /\ (forall p, ~ below_root p ->
        find_node_by_path app p = None
        /\ forall fuel, effective_loop fuel app p = None)
  /\ (forall an, PathOps.parent (mkPath an []) = mkPath an []).
Proof.
  intros Hr. apply reachable_wf in Hr. repeat split.
  - unfold find_node_by_path. now rewrite (wf_root _ Hr).
  - intros rel. apply effective_loop_returns.
  - unfold find_node_by_path.
    destruct (node_index app !! p) as [a|] eqn:E; [|reflexivity].
    exfalso. apply H. eapply wf_keys; eauto.
  - now apply effective_loop_outside.
Qed.

(** *** Upward propagation *)

(** The walk from [cur] only rewrites proper ancestors of [cur]: a node
    strictly below the parent of [cur] is left as it was. *)
Lemma update_parent_loop_cons t x rparent :
  update_parent_loop t (x :: rparent)
  = match Tree.node_at t (rev rparent) with
    | None => t
    | Some parent =>
        match node_children parent with
        | [] => t
        | chs =>
            let all_selected := forallb node_selected chs in
            let all_unselected := forallb (fun ch => negb (node_selected ch)) chs in
            if all_selected || all_unselected then
              update_parent_loop
                (if Bool.eqb (node_selected parent) all_selected then t
                 else Tree.alter_at (Tree.set_own all_selected) (rev rparent) t)
                rparent
            else t
        end
    end.
Proof. reflexivity. Qed.

Lemma update_parent_loop_below rparent : forall x t d,
  d <> [] ->
  Tree.node_at (update_parent_loop t (x :: rparent)) (rev rparent ++ d)
  = Tree.node_at t (rev rparent ++ d).
Proof.
  induction rparent as [|y rgp IH]; intros x t d Hd;
    rewrite update_parent_loop_cons;
    destruct (Tree.node_at t (rev _)) as [parent|] eqn:Ep; try reflexivity;
    destruct (node_children parent) as [|c0 cs] eqn:Ech; try reflexivity;
    cbv zeta;
    match goal with |- context [if ?c || ?c' then _ else _] => destruct (c || c') end;
    try reflexivity.
  - cbn [update_parent_loop rev app].
    match goal with |- context [if ?c then _ else _] => destruct c end;
      [reflexivity|].
    simpl. apply node_at_same_children; [reflexivity|assumption].
  - assert (E : rev (y :: rgp) ++ d = rev rgp ++ (y :: d)).
    { simpl. now rewrite <- app_assoc. }
    rewrite E. rewrite IH by discriminate. rewrite <- E.
    match goal with |- context [if ?c then _ else _] => destruct c end;
      [reflexivity|].
    rewrite node_at_alter_below, node_at_app, Ep.
    apply node_at_same_children; [reflexivity|assumption].
Qed.

Lemma update_parent_loop_here t a :
  Tree.node_at (update_parent_loop t (rev a)) a = Tree.node_at t a.
Proof.
  induction a as [|x a' _] using rev_ind; [reflexivity|].
  rewrite rev_unit.
  pose proof (update_parent_loop_below (rev a') x t [x]) as H.
  rewrite rev_involutive in H. apply H. discriminate.
Qed.

Lemma forallb_uniform (chs : list TreeNode) (v : bool) :
  chs <> [] ->
  (forall ch, In ch chs -> node_selected ch = v) ->
  forallb node_selected chs = v
  /\ (forallb node_selected chs
      || forallb (fun ch => negb (node_selected ch)) chs) = true.
Proof.
  intros Hne Hall. destruct v.
  - assert (forallb node_selected chs = true) as ->.
    { apply forallb_forall. intros ch Hin. now apply Hall. }
    split; reflexivity.
  - assert (forallb (fun ch => negb (node_selected ch)) chs = true) as ->.
    { apply forallb_forall. intros ch Hin. now rewrite Hall. }
    rewrite orb_true_r. split; [|reflexivity].
    destruct chs as [|c cs]; [congruence|].
    simpl. rewrite (Hall c) by (left; reflexivity). reflexivity.
Qed.

Lemma forallb_mixed (chs : list TreeNode) :
  (exists c1 c2, In c1 chs /\ In c2 chs /\ node_selected c1 <> node_selected c2) ->
  (forallb node_selected chs
   || forallb (fun ch => negb (node_selected ch)) chs) = false.
Proof.
  intros (c1 & c2 & H1 & H2 & Hne).
  apply orb_false_iff. split; apply not_true_iff_false; intros H;
    rewrite forallb_forall in H;
    pose proof (H c1 H1) as E1; pose proof (H c2 H2) as E2;
    destruct (node_selected c1), (node_selected c2); simpl in *; congruence.
Qed.

(** C7.  Let [n] be a node with at least one loaded child and start
    [update_parent_selection] at any child of [n].  When all children
    of [n] carry the same value [v], the walk stores [v] in [n] and
    goes on from [n]: the result is that of the walk started at [n] on
    the tree where [n] carries [v], and at the end the node at the
    place of [n] has the selection [v], with the path, the kind and the
    children of [n].  When two children differ, nothing is changed and
    the walk stops. *)
Theorem update_parent_selection_step app an i n :
  Tree.node_at (file_tree app) an = Some n ->
  is_Some (node_children n !! i) ->
  (forall v,
      (forall ch, In ch (node_children n) -> node_selected ch = v) ->
      update_parent_selection app (an ++ [i])
      = update_parent_selection
          (mkApp (Tree.alter_at (Tree.set_own v) an (file_tree app)) (node_index app)) an
      /\ Tree.node_at (file_tree (update_parent_selection app (an ++ [i]))) an
         = Some (Node (mkNodeData (nd_path (node_data n)) v (nd_is_dir (node_data n)))
                      (node_children n))
      /\ node_selected <$> Tree.node_at (file_tree (update_parent_selection app (an ++ [i]))) an
         = Some v
      /\ Tree.node_at (Tree.alter_at (Tree.set_own v) an (file_tree app)) an
         = Some (Node (mkNodeData (nd_path (node_data n)) v (nd_is_dir (node_data n)))
                      (node_children n)))
  /\ ((exists c1 c2, In c1 (node_children n) /\ In c2 (node_children n)
                     /\ node_selected c1 <> node_selected c2) ->
      update_parent_selection app (an ++ [i]) = app).
Proof.
  intros Hn [c Hc]. destruct app as [t idx]. simpl in Hn.
  unfold update_parent_selection. cbn [file_tree node_index]. rewrite rev_unit.
  rewrite update_parent_loop_cons, rev_involutive, Hn.
  destruct (node_children n) as [|c0 cs] eqn:Ech; [discriminate|].
  cbv beta iota zeta. split.
  - intros v Hall.
    destruct (forallb_uniform (c0 :: cs) v ltac:(discriminate) Hall) as [E1 E2].
    rewrite E2, E1.
    assert (Et : (if Bool.eqb (node_selected n) v then t
                  else Tree.alter_at (Tree.set_own v) an t)
                 = Tree.alter_at (Tree.set_own v) an t).
    { destruct (Bool.eqb (node_selected n) v) eqn:Eb; [|reflexivity].
      apply eqb_prop in Eb. symmetry. eapply alter_at_fixed; [exact Hn|].
      destruct n as [[pp ss dd] chs]. unfold node_selected in Eb. simpl in Eb.
      rewrite <- Eb. reflexivity. }
    rewrite Et. split; [reflexivity|].
    assert (Eh : Tree.node_at (update_parent_loop (Tree.alter_at (Tree.set_own v) an t)
                                                  (rev an)) an
                 = Some (Node (mkNodeData (nd_path (node_data n)) v
                                          (nd_is_dir (node_data n))) (c0 :: cs))).
    { rewrite update_parent_loop_here, node_at_alter_here, Hn.
      unfold Tree.set_own, with_selected. simpl. now rewrite Ech. }
    split; [exact Eh|]. split; [now rewrite Eh|].
    rewrite node_at_alter_here, Hn.
    unfold Tree.set_own, with_selected. simpl. now rewrite Ech.
  - intros Hmix. rewrite (forallb_mixed _ Hmix). reflexivity.
Qed.

(* =============================================================== *)
(** ** Properties of the DocumentBuilder *)

(** Induction on the filesystem content, through the listings. *)
Fixpoint entry_rect' (P : entry -> Prop)
         (Hfile : forall n c, P (File n c))
         (Hfail : forall n, P (Dir n None))
         (Hdir : forall n es, Forall P es -> P (Dir n (Some es)))
         (e : entry) {struct e} : P e :=
  match e with
  | File n c => Hfile n c
  | Dir n None => Hfail n
  | Dir n (Some es) =>
      Hdir n es
           ((fix all (l : list entry) : Forall P l :=
               match l with
               | [] => Forall_nil P
               | x :: r => Forall_cons P x r (entry_rect' P Hfile Hfail Hdir x) (all r)
               end) es)
  end.

(** An entry is kept when [should_skip] returns [False] for it. *)
Definition kept (p : Path) : bool :=
  match should_skip p with
  | Some false => true
  | _ => false
  end.

Lemma keep_unskipped_below {X : Type} (path_of : X -> Path) (l : list X) :
  (forall x, In x l -> below_root (path_of x)) ->
  keep_unskipped path_of l = Some (List.filter (fun x => kept (path_of x)) l).
Proof.
  induction l as [|x r IH]; intros H; simpl; [reflexivity|].
  rewrite IH by (intros y Hy; apply H; now right).
  destruct (H x (or_introl eq_refl)) as [rel Hrel].
  unfold kept. rewrite Hrel. destruct (should_skip_under_Some rel) as [b ->].
  destruct b; reflexivity.
Qed.

(** The entries [tree_lines] loops over in a directory below the root. *)
Definition tree_entries (app : App) (include_unselected : bool)
           (dir_path : Path) (es : list entry)
  : list (entry * (Path -> string -> list string)) :=
  sorted entry_key
         (List.filter (fun x => kept (PathOps.child dir_path (entry_name (fst x))))
                      (map (fun c => (c, tree_lines app include_unselected c)) es)).

Lemma tree_lines_dir app incl n es dir_path prefix :
  below_root dir_path ->
  tree_lines app incl (Dir n (Some es)) dir_path prefix
  = concat (imap (tree_entry app incl dir_path prefix
                             (List.length (tree_entries app incl dir_path es)))
                 (tree_entries app incl dir_path es)).
Proof.
  intros Hp. cbn [tree_lines]. rewrite keep_unskipped_below; [reflexivity|].
  intros x _. now apply below_root_child.
Qed.







(** *** The contents section *)

(** [iter_files] only yields files, at paths below the root. *)
Lemma iter_files_below e : forall p,
  below_root p ->
  Forall (fun x => below_root (fst x) /\ entry_is_dir (snd x) = false)
         (iter_files e p).
Proof.
  induction e as [n c|n|n es IH] using entry_rect'; intros p Hp;
    try apply Forall_nil.
  cbn [iter_files]. induction es as [|c r IHr]; [apply Forall_nil|].
  apply Forall_cons_1 in IH as [IHc IH].
  destruct (should_skip (PathOps.child p (entry_name c))) as [[|]|];
    [now apply IHr| |apply Forall_nil].
  apply Forall_app. split; [|now apply IHr].
  destruct (entry_is_dir c) eqn:Ed.
  - apply IHc. now apply below_root_child.
  - apply Forall_cons; [|apply Forall_nil]. split; [|exact Ed].
    now apply below_root_child.
Qed.





Lemma iter_files_root_below root_listing :
  Forall (fun x => below_root (fst x))
         (iter_files (Dir (PathOps.name ROOT) root_listing) ROOT).
Proof.
  eapply Forall_impl; [|apply iter_files_below, below_root_ROOT].
  intros x [H _]. exact H.
Qed.







(** *** Reading one file *)

(** The text and the opening fence [embed_file] uses. *)
Definition text_of (content : list byte) : string :=
  match decode_utf8 content with
  | Some t => t
  | None => decode_utf8_replace content
  end.

Definition fence_of (path : Path) : string :=
  if Str.truthy (code_lang_for path) then "```" +:+ code_lang_for path else "```".

Lemma fence_of_lang path : fence_of path = "```" +:+ code_lang_for path.
Proof. unfold fence_of. destruct (code_lang_for path); reflexivity. Qed.

(** The sample [detect_binary] is run on: what the first read returns. *)
Definition sample_of (bytes : list byte) : list byte :=
  match fh_read (Z.min (MAX_BYTES + 1) 8192) bytes with
  | Some (sample, _) => sample
  | None => []
  end.

Lemma fh_read_in_range n l :
  (0 <= n <= READ_MAX)%Z ->
  fh_read n l = Some (firstn (Z.to_nat n) l, skipn (Z.to_nat n) l).
Proof.
  intros H. unfold fh_read.
  destruct (Z.ltb_spec n (-1)); [lia|].
  destruct (Z.eqb_spec n (-1)); [lia|].
  destruct (Z.ltb_spec READ_MAX n); [lia|reflexivity].
Qed.

Lemma fh_read_all l : fh_read (-1) l = Some (l, []).
Proof. reflexivity. Qed.

Lemma fh_read_below n l : (n < -1)%Z -> fh_read n l = None.
Proof. intros H. unfold fh_read. destruct (Z.ltb_spec n (-1)); [reflexivity|lia]. Qed.

Lemma fh_read_above n l : (0 <= n)%Z -> (READ_MAX < n)%Z -> fh_read n l = None.
Proof.
  intros H0 H. unfold fh_read.
  destruct (Z.ltb_spec n (-1)); [reflexivity|].
  destruct (Z.eqb_spec n (-1)); [lia|].
  destruct (Z.ltb_spec READ_MAX n); [reflexivity|lia].
Qed.

Lemma firstn_then_firstn {A} (a b : nat) (l : list A) :
  firstn a l ++ firstn b (skipn a l) = firstn (a + b) l.
Proof.
  revert l. induction a as [|a IH]; intros l; simpl; [reflexivity|].
  destruct l as [|x l]; simpl.
  - now rewrite firstn_nil.
  - now rewrite IH.
Qed.

(** The limit is in range when it is not negative and the platform can
    read one byte more than the limit in one call. *)
Definition limit_in_range : Prop := (0 <= MAX_BYTES)%Z /\ (MAX_BYTES < READ_MAX)%Z.

(** What the two reads collect when the limit is in range: both return,
    with the first [MAX_BYTES + 1] bytes of the file. *)
Lemma two_reads bytes :
  limit_in_range ->
  exists unread rest unread',
    fh_read (Z.min (MAX_BYTES + 1) 8192) bytes = Some (sample_of bytes, unread)
    /\ (Z.of_nat (List.length (sample_of bytes)) <=? 8192)%Z = true
    /\ fh_read (MAX_BYTES + 1 - Z.of_nat (List.length (sample_of bytes))) unread
       = Some (rest, unread')
    /\ sample_of bytes ++ rest = firstn (Z.to_nat (MAX_BYTES + 1)) bytes.
Proof.
  intros [HM HR]. unfold sample_of. rewrite fh_read_in_range by lia.
  set (k := Z.to_nat (Z.min (MAX_BYTES + 1) 8192)).
  assert (Hlen : List.length (firstn k bytes) <= k) by (rewrite length_firstn; lia).
  eexists _, _, _. split; [reflexivity|]. split; [apply Z.leb_le; lia|].
  split; [apply fh_read_in_range; lia|].
  destruct (decide (k <= List.length bytes)) as [Hk|Hk].
  - rewrite length_firstn, Nat.min_l by assumption.
    rewrite firstn_then_firstn. f_equal. lia.
  - rewrite firstn_all2 by lia. rewrite skipn_all2 by lia.
    rewrite firstn_nil, app_nil_r. symmetry. apply firstn_all2. lia.
Qed.

Lemma embed_content_unfold path content :
  embed_content path content
  = let truncated := (MAX_BYTES <? Z.of_nat (List.length content))%Z in
    ["```" +:+ code_lang_for path;
     Str.rstrip "010"%char
                (text_of (if truncated then slice_to MAX_BYTES content else content));
     "```"]
    ++ (if truncated
        then ["_...truncated at " +:+ Str.of_Z MAX_BYTES +:+ " bytes_"] else []).
Proof.
  unfold embed_content. cbv zeta.
  change (if Str.truthy (code_lang_for path)
          then "```" +:+ code_lang_for path else "```") with (fence_of path).
  rewrite fence_of_lang. reflexivity.
Qed.

Lemma embed_file_unfold path bytes :
  limit_in_range ->
  Sniff.detect_binary (sample_of bytes) && negb READ_BINARY = false ->
  embed_file path bytes = embed_content path (firstn (Z.to_nat (MAX_BYTES + 1)) bytes).
Proof.
  intros HM Hbin.
  destruct (two_reads bytes HM) as (unread & rest & unread' & H1 & H2 & H3 & H4).
  unfold embed_file. cbv zeta. rewrite H1, Hbin, H2, H3, H4. reflexivity.
Qed.





(** *** Listings that fail *)















(** The section of a yielded entry: for a file below the root, its
    heading and what reading it appends. *)
Definition file_section (x : Path * entry) : list string :=
  match snd x with
  | Dir _ _ => []
  | File _ c =>
      match PathOps.relative_to (fst x) ROOT with
      | Some rel => section_header rel :: read_lines (fst x) c
      | None => []
      end
  end.

Lemma contents_lines_selected app files :
  Forall (fun x => below_root (fst x)) files ->
  contents_lines app files
  = Some (concat (map file_section
                      (List.filter (fun x => is_selected_effective app (fst x)) files))).
Proof.
  induction 1 as [|[p e] r [rel Hp] _ IH]; [reflexivity|].
  simpl in Hp. subst p. cbn [contents_lines]. rewrite IH.
  cbn [file_lines List.filter fst].
  destruct (is_selected_effective app (PathOps.under ROOT rel)); cbn [negb].
  - cbn [map concat]. unfold file_section at 2. cbn [fst snd].
    destruct e as [n c|n l]; [|reflexivity].
    rewrite PathOps.relative_to_under. reflexivity.
  - reflexivity.
Qed.


(* =============================================================== *)
(** ** Further properties of the PathFilter *)

Lemma round_matches_prefix rel more i :
  i <= List.length rel -> round_matches (rel ++ more) i = round_matches rel i.
Proof.
  intros Hi. unfold round_matches, candidates.
  rewrite firstn_app. replace (i - List.length rel) with 0 by lia.
  simpl. rewrite app_nil_r. reflexivity.
Qed.

Lemma excluded_by_pattern_prefix rel more :
  excluded_by_pattern rel = true -> excluded_by_pattern (rel ++ more) = true.
Proof.
  unfold excluded_by_pattern. rewrite !existsb_exists.
  intros (i & Hin & Hi). apply in_seq in Hin. exists i. split.
  - apply in_seq. rewrite length_app. lia.
  - rewrite round_matches_prefix by lia. exact Hi.
Qed.

Lemma parts_under p rel : PathOps.parts (PathOps.under p rel) = PathOps.parts p ++ rel.
Proof. unfold PathOps.parts, PathOps.under. simpl. now rewrite app_assoc. Qed.

Lemma is_hidden_prefix rel more :
  is_hidden (PathOps.under ROOT rel) = true ->
  is_hidden (PathOps.under ROOT (rel ++ more)) = true.
Proof.
  unfold is_hidden. rewrite !parts_under, app_assoc.
  rewrite (filter_app _ (PathOps.parts ROOT ++ rel) more), existsb_app.
  intros ->. reflexivity.
Qed.

(** X1.  Whatever [should_skip] skips, it skips with everything below:
    if it returns [True] for a path below the root (or for the root), it
    returns [True] for every path below that path. *)
Theorem should_skip_covers_subtree rel more :
  should_skip (PathOps.under ROOT rel) = Some true ->
  should_skip (PathOps.under ROOT (rel ++ more)) = Some true.
Proof.
  rewrite !should_skip_under. intros H. injection H as H. f_equal.
  apply orb_true_iff in H as [H|H].
  - apply andb_true_iff in H as [H1 H2].
    rewrite H1, (is_hidden_prefix _ _ H2). reflexivity.
  - apply andb_true_iff in H as [H1 H2].
    rewrite (excluded_by_pattern_prefix _ more H2).
    rewrite bool_decide_eq_false_2.
    + apply orb_true_r.
    + intros E. apply app_eq_nil in E as [-> _].
      rewrite bool_decide_eq_true_2 in H1 by reflexivity. discriminate.
Qed.

Lemma relative_to_None p : PathOps.relative_to p ROOT = None <-> ~ below_root p.
Proof.
  split.
  - intros H [rel ->]. rewrite PathOps.relative_to_under in H. discriminate.
  - intros H. destruct (PathOps.relative_to p ROOT) as [rel|] eqn:E; [|reflexivity].
    exfalso. apply H. exists rel. now apply PathOps.relative_to_Some.
Qed.

(** X2.  [should_skip] raises (the [ValueError] of [relative_to])
    exactly on the paths that are not below the root and that the hidden
    rule does not already skip; [path_matches_excludes] raises exactly
    on the paths that are not below the root. *)
Theorem should_skip_raises_outside_root p :
  (path_matches_excludes p = None <-> ~ below_root p)
  /\ (should_skip p = None <->
      ~ below_root p /\ negb INCLUDE_HIDDEN && is_hidden p = false).
Proof.
  assert (H : path_matches_excludes p = None <-> ~ below_root p).
  { unfold path_matches_excludes. destruct (decide (p = ROOT)) as [->|Hne].
    - split; [discriminate|]. intros H. exfalso. apply H, below_root_ROOT.
    - rewrite <- relative_to_None.
      destruct (PathOps.relative_to p ROOT); split; congruence. }
  split; [exact H|]. unfold should_skip.
  destruct (negb INCLUDE_HIDDEN && is_hidden p).
  - split; [discriminate|]. intros [_ ?]. discriminate.
  - destruct (decide (p = ROOT)) as [->|Hne].
    + split; [discriminate|]. intros [Hb _]. exfalso. apply Hb, below_root_ROOT.
    + destruct (path_matches_excludes p) as [[|]|] eqn:E.
      * split; [discriminate|]. intros [Hb _]. apply H in Hb. discriminate.
      * split; [discriminate|]. intros [Hb _]. apply H in Hb. discriminate.
      * split; [|reflexivity]. intros _. split; [now apply H|reflexivity].
Qed.

Lemma filter_none {A} (f : A -> bool) (l : list A) :
  (forall x, In x l -> f x = false) -> List.filter f l = [].
Proof.
  induction l as [|x l IH]; intros H; simpl; [reflexivity|].
  rewrite (H x) by (left; reflexivity). apply IH. intros y Hy. apply H. now right.
Qed.

Lemma tree_lines_all_skipped app incl e p prefix :
  (forall rel, should_skip (PathOps.under ROOT rel) = Some true) ->
  below_root p ->
  tree_lines app incl e p prefix = [].
Proof.
  intros Hall Hp. destruct e as [n c|n [es|]]; try reflexivity.
  rewrite tree_lines_dir by assumption. unfold tree_entries.
  rewrite filter_none; [reflexivity|].
  intros x _. unfold kept.
  destruct (below_root_child p (entry_name (fst x)) Hp) as [rel ->].
  now rewrite Hall.
Qed.

Lemma iter_files_all_skipped e p :
  (forall rel, should_skip (PathOps.under ROOT rel) = Some true) ->
  below_root p ->
  iter_files e p = [].
Proof.
  intros Hall Hp. destruct e as [n c|n [es|]]; try reflexivity.
  cbn [iter_files]. induction es as [|c r IH]; [reflexivity|].
  destruct (below_root_child p (entry_name c) Hp) as [rel ->].
  rewrite Hall. exact IH.
Qed.

(** X3.  The hidden rule looks at every component of the absolute path,
    those of the root included.  With hidden files excluded and a root
    that has a component starting with a dot, [should_skip] returns
    [True] for the root and for every path below it, and the document
    is the title and the contents heading with nothing listed. *)
Theorem hidden_root_empties_document :
  INCLUDE_HIDDEN = false ->
  is_hidden ROOT = true ->
  (forall rel, should_skip (PathOps.under ROOT rel) = Some true)
  /\ (forall app incl root_listing,
         build_lines app incl root_listing = Some (title_lines ++ contents_heading)).
Proof.
  intros Hinc Hhid.
  assert (Hall : forall rel, should_skip (PathOps.under ROOT rel) = Some true).
  { intros rel. replace rel with ([] ++ rel) by reflexivity.
    apply should_skip_covers_subtree. rewrite PathOps.under_nil.
    unfold should_skip. now rewrite Hinc, Hhid. }
  split; [exact Hall|]. intros app incl root_listing. unfold build_lines.
  rewrite (iter_files_all_skipped _ _ Hall below_root_ROOT).
  rewrite (tree_lines_all_skipped _ _ _ _ _ Hall below_root_ROOT).
  cbn [contents_lines]. now rewrite app_nil_r.
Qed.

(* =============================================================== *)
(** ** Further properties of the BinaryContentInspector *)

(** X4.  A sample of at most 8192 bytes that only holds bytes of the
    allow-list (so no null byte either) is never classified binary; the
    empty sample is such a sample. *)
Theorem text_sample_not_binary (sample : list byte) :
  (Z.of_nat (List.length sample) <= 8192)%Z ->
  Forall (fun b => Sniff.is_text_char b = true) sample ->
  Sniff.detect_binary sample = false.
Proof.
  intros Hlen Hall. unfold Sniff.detect_binary.
  assert (Hnull : existsb (Byte.eqb x00) sample = false).
  { apply not_true_iff_false. intros H. apply has_null_iff in H.
    rewrite Forall_forall in Hall. apply Hall in H. vm_compute in H. discriminate. }
  rewrite Hnull. rewrite thirty_percent_exact by assumption.
  assert (Hnon : Sniff.nontext sample = []).
  { unfold Sniff.nontext. apply filter_none. intros b Hb.
    rewrite Forall_forall in Hall. now rewrite (Hall b Hb). }
  rewrite Hnon. simpl. apply Z.ltb_ge. lia.
Qed.

(* =============================================================== *)
(** ** The order of directory entries *)

Lemma key_le_total k1 k2 : key_le k1 k2 = true \/ key_le k2 k1 = true.
Proof.
  unfold key_le. destruct k1 as [[|] s1], k2 as [[|] s2]; simpl; auto;
    apply String.leb_total.
Qed.

Section SortedProps.
Context {A : Type} (key : A -> bool * string).

(** Adjacent entries are in key order. *)
Definition in_key_order (l : list A) : Prop :=
  forall i x y, l !! i = Some x -> l !! S i = Some y -> key_le (key x) (key y) = true.

(** No file comes before a directory: the first component of the key is
    [not is_dir]. *)
Definition dirs_first (l : list A) : Prop :=
  exists ds fs,
    l = ds ++ fs
    /\ Forall (fun x => fst (key x) = false) ds
    /\ Forall (fun x => fst (key x) = true) fs.

Lemma in_key_order_cons x l :
  in_key_order l ->
  (forall y, head l = Some y -> key_le (key x) (key y) = true) ->
  in_key_order (x :: l).
Proof.
  intros Hl Hx [|i] a b Ha Hb; simpl in *.
  - injection Ha as <-. apply Hx. now destruct l.
  - eapply Hl; eauto.
Qed.

Lemma in_key_order_tail x l : in_key_order (x :: l) -> in_key_order l.
Proof. intros H i a b Ha Hb. apply (H (S i) a b); assumption. Qed.

Lemma insert_by_head x l y :
  head (insert_by key x l) = Some y -> y = x \/ head l = Some y.
Proof.
  destruct l as [|z r]; simpl.
  - intros H. injection H as <-. now left.
  - destruct (key_le (key x) (key z)); simpl; intros H; injection H as <-; auto.
Qed.

Lemma insert_by_in_key_order x l :
  in_key_order l -> in_key_order (insert_by key x l).
Proof.
  induction l as [|z r IH]; intros Hl; simpl.
  - intros [|i] a b Ha Hb; simpl in *; discriminate.
  - destruct (key_le (key x) (key z)) eqn:E.
    + apply in_key_order_cons; [assumption|].
      simpl. intros y Hy. now injection Hy as <-.
    + apply in_key_order_cons.
      * apply IH. eapply in_key_order_tail; eauto.
      * intros y Hy. apply insert_by_head in Hy as [->|Hy].
        -- destruct (key_le_total (key x) (key z)); congruence.
        -- apply (Hl 0 z y); [reflexivity|]. simpl. now destruct r.
Qed.

Lemma sorted_in_key_order l : in_key_order (sorted key l).
Proof.
  induction l as [|x l IH]; simpl.
  - intros i a b Ha. destruct i; discriminate.
  - now apply insert_by_in_key_order.
Qed.

Lemma key_le_dir_before k1 k2 : key_le k1 k2 = true -> fst k2 = false -> fst k1 = false.
Proof. unfold key_le. destruct k1 as [[|] s1], k2 as [[|] s2]; simpl; congruence. Qed.

Lemma in_key_order_dirs_first l : in_key_order l -> dirs_first l.
Proof.
  induction l as [|x l IH]; intros Hl.
  - exists [], []. repeat split; constructor.
  - destruct (IH (in_key_order_tail _ _ Hl)) as (ds & fs & -> & Hd & Hf).
    destruct (fst (key x)) eqn:Ex.
    + exists [], (x :: ds ++ fs). split; [reflexivity|]. split; [constructor|].
      constructor; [assumption|].
      destruct ds as [|d ds]; [assumption|]. exfalso.
      apply Forall_cons_1 in Hd as [Hd _].
      pose proof (key_le_dir_before _ _ (Hl 0 x d eq_refl eq_refl) Hd). congruence.
    + exists (x :: ds), fs. split; [reflexivity|]. split; [|assumption].
      now constructor.
Qed.

(** X5.  [sorted], as used on directory listings with the key
    [(not is_dir, lower-cased name)]: the result holds the same entries,
    adjacent entries are in key order, and every directory comes before
    every file. *)
Theorem sorted_directories_first (l : list A) :
  sorted key l ≡ₚ l /\ in_key_order (sorted key l) /\ dirs_first (sorted key l).
Proof.
  split; [apply sorted_perm|]. split; [apply sorted_in_key_order|].
  apply in_key_order_dirs_first, sorted_in_key_order.
Qed.

End SortedProps.

(* =============================================================== *)
(** ** Further properties of the TreeModel *)

(** *** Populating a node *)

(** The nodes [populate_children] adds for a listing: one per kept
    entry, in the order of the listing, carrying [sel]. *)
Definition new_children (sel : bool) (entries : list (Path * bool)) : list TreeNode :=
  map (fun x => Node (mkNodeData (fst x) sel (snd x)) [])
      (List.filter (fun x => kept (fst x)) entries).

Definition kept_paths (entries : list (Path * bool)) : list Path :=
  map fst (List.filter (fun x => kept (fst x)) entries).

Lemma add_child_at app a p d node :
  Tree.node_at (file_tree app) a = Some node ->
  Tree.node_at (file_tree (add_child app a p d)) a
  = Some (Node (node_data node)
               (node_children node ++ [Node (mkNodeData p (node_selected node) d) []]))
  /\ node_index (add_child app a p d)
     = <[ p := a ++ [List.length (node_children node)] ]> (node_index app).
Proof.
  intros Hn. unfold add_child. rewrite Hn. simpl.
  rewrite node_at_alter_here, Hn. split; reflexivity.
Qed.

Lemma new_children_cons sel p d rest :
  new_children sel ((p, d) :: rest)
  = if kept p then Node (mkNodeData p sel d) [] :: new_children sel rest
    else new_children sel rest.
Proof. unfold new_children. simpl. now destruct (kept p). Qed.

Lemma kept_paths_cons p (d : bool) rest :
  kept_paths ((p, d) :: rest) = if kept p then p :: kept_paths rest else kept_paths rest.
Proof. unfold kept_paths. simpl. now destruct (kept p). Qed.

Lemma populate_loop_spec a entries : forall app node,
  Tree.node_at (file_tree app) a = Some node ->
  Forall (fun x => below_root (fst x)) entries ->
  exists app',
    populate_loop app a entries = Some app'
    /\ Tree.node_at (file_tree app') a
       = Some (Node (node_data node)
                    (node_children node ++ new_children (node_selected node) entries))
    /\ (forall p, In p (kept_paths entries) ->
          exists k c,
            node_index app' !! p = Some (a ++ [k])
            /\ (node_children node ++ new_children (node_selected node) entries) !! k = Some c
            /\ nd_path (node_data c) = p
            /\ node_selected c = node_selected node
            /\ node_children c = [])
    /\ (forall p, ~ In p (kept_paths entries) ->
          node_index app' !! p = node_index app !! p).
Proof.
  induction entries as [|[p0 d0] rest IH]; intros app node Hn Hall.
  - exists app. simpl. rewrite app_nil_r, node_eta. repeat split; auto.
    intros p [].
  - apply Forall_cons_1 in Hall as [[rel Hrel] Hall]. simpl in Hrel.
    destruct (should_skip_under_Some rel) as [b Hb]. rewrite <- Hrel in Hb.
    assert (Hk : kept p0 = negb b) by (unfold kept; rewrite Hb; now destruct b).
    rewrite new_children_cons, kept_paths_cons, Hk.
    cbn [populate_loop]. rewrite Hb. destruct b; cbn [negb].
    + apply (IH app node Hn Hall).
    + destruct (add_child_at app a p0 d0 node Hn) as [Hn1 Hidx].
      destruct (IH _ _ Hn1 Hall) as (app' & Hrun & Hnode & Hin & Hout).
      cbn [node_data node_children] in Hnode, Hin.
      change (node_selected (Node (node_data node)
                (node_children node ++ [Node (mkNodeData p0 (node_selected node) d0) []])))
        with (node_selected node) in Hnode, Hin.
      rewrite <- app_assoc in Hnode. cbn [List.app] in Hnode.
      exists app'. split; [exact Hrun|]. split; [exact Hnode|]. split.
      * intros p Hp.
        destruct (in_dec (fun x y => decide (x = y)) p (kept_paths rest)) as [Hr|Hr].
        -- destruct (Hin p Hr) as (k & c & H1 & H2 & H3).
           exists k, c. split; [exact H1|]. split; [|exact H3].
           rewrite <- app_assoc in H2. exact H2.
        -- destruct Hp as [<-|Hp]; [|contradiction].
           exists (List.length (node_children node)),
                  (Node (mkNodeData p0 (node_selected node) d0) []).
           rewrite (Hout p0 Hr), Hidx, lookup_insert_eq.
           split; [reflexivity|]. split; [|repeat split].
           now rewrite list_lookup_middle.
      * intros p Hp.
        rewrite Hout by (intros H; apply Hp; now right).
        rewrite Hidx. apply lookup_insert_ne. intros ->. apply Hp. now left.
Qed.

Lemma lists_below path l : below_root path -> lists path l ->
  Forall (fun x => below_root (fst x)) l.
Proof.
  intros Hp. apply Forall_impl. intros x [seg ->]. now apply below_root_child.
Qed.

(** X6.  [populate_children] on a node, for a listing of paths below
    the root: it returns; the node gets, after the children it had, one
    new childless node per entry that [should_skip] keeps, in sorted
    order, each carrying the node's current selection; every kept path
    is then found through the index, at a node with that path and that
    selection; an entry that is skipped gets no index entry.  When the
    listing fails the state is unchanged. *)
Theorem populate_children_spec app a node (l : list (Path * bool)) :
  Tree.node_at (file_tree app) a = Some node ->
  Forall (fun x => below_root (fst x)) l ->
  populate_children app a None = Some app
  /\ exists app',
      populate_children app a (Some l) = Some app'
      /\ Tree.node_at (file_tree app') a
         = Some (Node (node_data node)
                      (node_children node
                       ++ new_children (node_selected node)
                            (sorted (fun x => sort_key (snd x) (PathOps.name (fst x))) l)))
      /\ (forall p d, In (p, d) l -> kept p = true ->
            exists n,
              find_node_by_path app' p = Some n
              /\ nd_path (node_data n) = p
              /\ node_selected n = node_selected node
              /\ node_children n = [])
      /\ (forall p d, In (p, d) l -> kept p = false ->
            node_index app' !! p = node_index app !! p).
Proof.
  intros Hn Hall. split; [reflexivity|].
  set (s := sorted (fun x => sort_key (snd x) (PathOps.name (fst x))) l).
  assert (Hperm : s ≡ₚ l) by apply sorted_perm.
  assert (Hall' : Forall (fun x => below_root (fst x)) s) by now rewrite Hperm.
  destruct (populate_loop_spec a s app node Hn Hall')
    as (app' & Hrun & Hnode & Hin & Hout).
  exists app'. split; [exact Hrun|]. split; [exact Hnode|]. split.
  - intros p d Hp Hk.
    destruct (Hin p) as (k & c & Hi & Hc & H1 & H2 & H3).
    { unfold kept_paths. apply in_map_iff. exists (p, d). split; [reflexivity|].
      apply filter_In. split; [|exact Hk].
      apply list_elem_of_In. rewrite Hperm. now apply list_elem_of_In. }
    exists c. unfold find_node_by_path. rewrite Hi, node_at_app, Hnode.
    simpl. rewrite Hc. auto.
  - intros p d _ Hk. apply Hout. unfold kept_paths. intros H.
    apply in_map_iff in H as ([p' d'] & Hp' & H). simpl in Hp'. subst p'.
    apply filter_In in H as [_ H]. simpl in H. congruence.
Qed.

(** X7.  [action_refresh] keeps the root's selection and nothing else:
    for a listing of children of the root (or a failed listing) it
    returns, and in the new state the effective selection of every path
    below the root is the selection the root had before. *)
Theorem refresh_resets_selection app iterdir :
  match iterdir with Some l => lists ROOT l | None => True end ->
  exists app',
    action_refresh app iterdir = Some app'
    /\ (forall rel fuel, List.length rel < fuel ->
          effective_loop fuel app' (PathOps.under ROOT rel)
          = Some (node_selected (file_tree app)))
    /\ (forall rel, is_selected_effective app' (PathOps.under ROOT rel)
                    = node_selected (file_tree app)).
Proof.
  intros Hl. unfold action_refresh.
  set (rs := node_selected (file_tree app)).
  set (root := Tree.set_own rs (Node (node_data (file_tree app)) [])).
  set (fresh := mkApp root {[ ROOT := [] ]}).
  assert (Huniform : forall app',
             populate_children fresh [] iterdir = Some app' ->
             is_Some (find_node_by_path app' ROOT)
             /\ forall p n, find_node_by_path app' p = Some n -> node_selected n = rs).
  { intros app' Hrun. destruct iterdir as [l|].
    - destruct (populate_children_spec fresh [] root l eq_refl
                  (lists_below ROOT l below_root_ROOT Hl))
        as (_ & app'' & Hrun' & Hnode & _ & _).
      rewrite Hrun in Hrun'. injection Hrun' as <-.
      unfold populate_children in Hrun.
      set (s := sorted (fun x => sort_key (snd x) (PathOps.name (fst x))) l) in *.
      assert (Hs : Forall (fun x => below_root (fst x)) s).
      { unfold s. rewrite sorted_perm. apply (lists_below ROOT l below_root_ROOT Hl). }
      destruct (populate_loop_spec [] s fresh root eq_refl Hs)
        as (app'' & Hrun' & _ & Hin & Hout).
      rewrite Hrun in Hrun'. injection Hrun' as <-.
      simpl in Hnode. injection Hnode as Htree.
      assert (Hfind : forall p n, find_node_by_path app' p = Some n -> node_selected n = rs).
      { intros p n Hp. unfold find_node_by_path in Hp.
        destruct (in_dec (fun x y => decide (x = y)) p (kept_paths s)) as [Hk|Hk].
        - destruct (Hin p Hk) as (k & c & Hi & Hc & _ & H2 & _).
          rewrite Hi, Htree in Hp. simpl in Hp, Hc.
          rewrite Hc in Hp. injection Hp as <-. exact H2.
        - rewrite (Hout p Hk) in Hp. simpl in Hp.
          destruct (decide (ROOT = p)) as [<-|Hne].
          + rewrite lookup_singleton_eq, Htree in Hp. simpl in Hp.
            now injection Hp as <-.
          + rewrite lookup_singleton_ne in Hp by assumption. discriminate. }
      split; [|exact Hfind].
      unfold find_node_by_path.
      destruct (in_dec (fun x y => decide (x = y)) ROOT (kept_paths s)) as [Hk|Hk].
      + destruct (Hin ROOT Hk) as (k & c & Hi & Hc & _).
        rewrite Hi, Htree. simpl. simpl in Hc. rewrite Hc. eauto.
      + rewrite (Hout ROOT Hk). simpl. rewrite lookup_singleton_eq. simpl. eauto.
    - injection Hrun as <-. split.
      + unfold find_node_by_path. simpl. rewrite lookup_singleton_eq. simpl. eauto.
      + intros p n Hp. unfold find_node_by_path in Hp. simpl in Hp.
        destruct (decide (ROOT = p)) as [<-|Hne].
        * rewrite lookup_singleton_eq in Hp. now injection Hp as <-.
        * rewrite lookup_singleton_ne in Hp by assumption. discriminate. }
  assert (Hret : exists app', populate_children fresh [] iterdir = Some app').
  { destruct iterdir as [l|]; [|simpl; eauto].
    destruct (populate_children_spec fresh [] root l eq_refl
                (lists_below ROOT l below_root_ROOT Hl)) as (_ & app' & Hrun & _).
    eauto. }
  destruct Hret as [app' Hrun]. exists app'. split; [exact Hrun|].
  destruct (Huniform app' Hrun) as [Hroot Hall].
  assert (Hloop : forall rel fuel, List.length rel < fuel ->
             effective_loop fuel app' (PathOps.under ROOT rel) = Some rs).
  { intros rel fuel Hf. now apply effective_loop_uniform. }
  split; [exact Hloop|].
  intros rel. apply (is_selected_effective_loop _ _ _ (S (List.length rel))); [lia|].
  apply Hloop. lia.
Qed.

(** *** The index names the nodes *)

(** A function on nodes that keeps the path of every node below. *)
Definition keeps_paths (f : TreeNode -> TreeNode) : Prop :=
  forall n b m,
    Tree.node_at n b = Some m ->
    exists m', Tree.node_at (f n) b = Some m'
               /\ nd_path (node_data m') = nd_path (node_data m).

Lemma alter_at_keeps_paths f a : keeps_paths f -> keeps_paths (Tree.alter_at f a).
Proof.
  intros Hf. induction a as [|i a IH]; intros t b m Hb; simpl; [now apply Hf|].
  destruct b as [|j b]; simpl in *.
  - injection Hb as <-. eauto.
  - destruct (decide (i = j)) as [->|Hne].
    + rewrite list_lookup_alter_eq.
      destruct (node_children t !! j); simpl; [now apply IH|discriminate].
    + rewrite list_lookup_alter_ne by assumption. eauto.
Qed.

Lemma set_own_keeps_paths v : keeps_paths (Tree.set_own v).
Proof.
  intros n b m Hb. destruct b as [|j b]; simpl in *.
  - injection Hb as <-. eauto.
  - eauto.
Qed.

Lemma add_last_keeps_paths c : keeps_paths (Tree.add_last c).
Proof.
  intros n b m Hb. destruct b as [|j b]; simpl in *.
  - injection Hb as <-. eauto.
  - destruct (node_children n !! j) eqn:E; [|discriminate].
    rewrite lookup_app_l by (eapply lookup_lt_Some; eauto).
    rewrite E. eauto.
Qed.

Lemma set_subtree_keeps_paths v : keeps_paths (Tree.set_subtree v).
Proof.
  intros n b m Hb. rewrite node_at_set_subtree, Hb. simpl.
  eexists. split; [reflexivity|]. apply set_subtree_path.
Qed.

(** An indexed path is the path of the node it is indexed at. *)
Definition index_names (app : App) : Prop :=
  forall p a n,
    node_index app !! p = Some a ->
    Tree.node_at (file_tree app) a = Some n ->
    nd_path (node_data n) = p.

Lemma index_names_alter app f a :
  keeps_paths f -> wf app -> index_names app ->
  index_names (mkApp (Tree.alter_at f a (file_tree app)) (node_index app)).
Proof.
  intros Hf Hwf Hnames p b n Hp Hn. simpl in *.
  destruct (wf_sound _ Hwf p b Hp) as [m Hm].
  destruct (alter_at_keeps_paths f a Hf _ _ _ Hm) as (m' & Hm' & E).
  rewrite Hn in Hm'. injection Hm' as <-. rewrite E. eapply Hnames; eauto.
Qed.

Lemma index_names_update_parent_loop idx rcur : forall t,
  wf (mkApp t idx) -> index_names (mkApp t idx) ->
  index_names (mkApp (update_parent_loop t rcur) idx).
Proof.
  induction rcur as [|x rparent IH]; intros t Hwf Hn; [assumption|].
  rewrite update_parent_loop_cons.
  destruct (Tree.node_at t (rev rparent)) as [parent|]; [|assumption].
  destruct (node_children parent) as [|c0 cs]; [assumption|]. cbv zeta.
  match goal with |- context [if ?c || ?c' then _ else _] => destruct (c || c') end;
    [|assumption].
  match goal with |- context [if ?c then _ else _] => destruct c end;
    [now apply IH|].
  apply IH.
  - apply (wf_alter (mkApp t idx)); [apply set_own_keeps| |assumption].
    intros n. apply all_below_set_own.
  - apply (index_names_alter (mkApp t idx)); [apply set_own_keeps_paths|assumption..].
Qed.

Lemma index_names_add_child app a p d :
  wf app -> index_names app -> index_names (add_child app a p d).
Proof.
  intros Hwf Hnames. unfold add_child.
  destruct (Tree.node_at (file_tree app) a) as [node|] eqn:En; [|assumption].
  intros p' b n Hp Hn. simpl in *.
  destruct (decide (p = p')) as [<-|Hne].
  - rewrite lookup_insert_eq in Hp. injection Hp as <-.
    rewrite node_at_alter_below, En in Hn. simpl in Hn.
    rewrite list_lookup_middle in Hn by reflexivity. now injection Hn as <-.
  - rewrite lookup_insert_ne in Hp by assumption.
    destruct (wf_sound _ Hwf p' b Hp) as [m Hm].
    destruct (alter_at_keeps_paths _ a (add_last_keeps_paths
                (Node (mkNodeData p (node_selected node) d) [])) _ _ _ Hm)
      as (m' & Hm' & E).
    rewrite Hn in Hm'. injection Hm' as <-. rewrite E. eapply Hnames; eauto.
Qed.

Lemma index_names_populate_loop entries : forall app a path app',
  wf app -> index_names app -> below_root path -> lists path entries ->
  populate_loop app a entries = Some app' -> index_names app'.
Proof.
  induction entries as [|[child_path is_dir] rest IH];
    intros app a path app' Hwf Hn Hp Hl Hrun; simpl in Hrun.
  - now injection Hrun as <-.
  - apply Forall_cons_1 in Hl as [[seg Hc] Hl]. simpl in Hc. subst child_path.
    destruct (should_skip (PathOps.child path seg)) as [[|]|]; [| |discriminate].
    + eapply IH; eauto.
    + eapply (IH (add_child app a (PathOps.child path seg) is_dir)); eauto.
      * apply wf_add_child; [assumption| |].
        -- now apply below_root_child.
        -- now apply child_not_ROOT.
      * now apply index_names_add_child.
Qed.

Lemma index_names_populate_children app a path iterdir app' :
  wf app -> index_names app -> below_root path ->
  match iterdir with Some l => lists path l | None => True end ->
  populate_children app a iterdir = Some app' -> index_names app'.
Proof.
  intros Hwf Hn Hp Hl Hrun. destruct iterdir as [l|]; simpl in Hrun.
  - refine (index_names_populate_loop _ app a path app' Hwf Hn Hp _ Hrun).
    unfold lists. now rewrite sorted_perm.
  - now injection Hrun as <-.
Qed.

Lemma index_names_singleton root :
  nd_path (node_data root) = ROOT -> index_names (mkApp root {[ ROOT := [] ]}).
Proof.
  intros E p a n Hp Hn. simpl in *.
  apply lookup_singleton_Some in Hp as [<- <-]. simpl in Hn. now injection Hn as <-.
Qed.

(** X8.  In every state the application reaches, [find_node_by_path]
    returns, for a path, a node that carries this very path; the root
    node carries [ROOT]. *)
Theorem index_names_nodes app :
  reachable app ->
  (forall p n, find_node_by_path app p = Some n -> nd_path (node_data n) = p)
  /\ nd_path (node_data (file_tree app)) = ROOT.
Proof.
  intros Hr.
  assert (H : index_names app).
  { induction Hr as [d|app a node iterdir app' Hr IH Hn Hl He|app a Hr IH
                     |app Hr IH|app Hr IH|app iterdir app' Hr IH Hl He].
    - now apply index_names_singleton.
    - pose proof (reachable_wf _ Hr) as Hwf.
      unfold on_tree_node_expanded in He. rewrite Hn in He.
      destruct node as [d [|c cs]]; [|now injection He as <-].
      eapply (index_names_populate_children app a (nd_path d)); eauto.
      apply (wf_paths _ Hwf a _ Hn).
    - pose proof (reachable_wf _ Hr) as Hwf. unfold action_toggle.
      destruct (Tree.node_at (file_tree app) a) as [node|]; [|assumption].
      unfold update_parent_selection. apply index_names_update_parent_loop.
      + apply (wf_set_node_selected app a _ Hwf).
      + apply (index_names_alter app); [apply set_subtree_keeps_paths|assumption..].
    - apply (index_names_alter app); [apply set_subtree_keeps_paths| |assumption].
      now apply reachable_wf.
    - apply (index_names_alter app); [apply set_subtree_keeps_paths| |assumption].
      now apply reachable_wf.
    - pose proof (reachable_wf _ Hr) as Hwf. unfold action_refresh in He.
      assert (Eroot : nd_path (node_data (file_tree app)) = ROOT).
      { apply (IH ROOT [] _ (wf_root _ Hwf)). reflexivity. }
      eapply (index_names_populate_children _ [] ROOT); [| | | exact Hl | exact He].
      + split; simpl.
        * apply lookup_singleton_eq.
        * intros p a Hp. apply lookup_singleton_Some in Hp as [_ <-]. simpl. eauto.
        * intros p a Hp. apply lookup_singleton_Some in Hp as [<- _].
          apply below_root_ROOT.
        * apply all_below_leaf. simpl. rewrite Eroot. apply below_root_ROOT.
      + now apply index_names_singleton.
      + apply below_root_ROOT. }
  split.
  - intros p n Hp. unfold find_node_by_path in Hp.
    destruct (node_index app !! p) as [a|] eqn:E; [|discriminate]. eapply H; eauto.
  - apply (H ROOT [] _ (wf_root _ (reachable_wf _ Hr))). reflexivity.
Qed.

(** *** Downward propagation *)

Lemma alter_at_frame f a : forall t b,
  (forall c, b <> a ++ c) ->
  node_data <$> Tree.node_at (Tree.alter_at f a t) b = node_data <$> Tree.node_at t b.
Proof.
  induction a as [|i a IH]; intros t b Hb.
  - exfalso. apply (Hb b). reflexivity.
  - destruct b as [|j b]; simpl; [reflexivity|].
    destruct (decide (i = j)) as [->|Hne].
    + rewrite list_lookup_alter_eq.
      destruct (node_children t !! j); simpl; [|reflexivity].
      apply IH. intros c ->. apply (Hb c). reflexivity.
    + now rewrite list_lookup_alter_ne.
Qed.

(** X9.  [set_node_selected(node, v)] rewrites the subtree of the node
    and nothing else: the node becomes its copy with [v] stored all the
    way down, every node at or below it carries [v], every node that is
    not at or below it keeps its data, and the index is untouched. *)
Theorem set_node_selected_subtree app a v node :
  Tree.node_at (file_tree app) a = Some node ->
  Tree.node_at (file_tree (set_node_selected app a v)) a = Some (Tree.set_subtree v node)
  /\ (forall b m,
         Tree.node_at (file_tree (set_node_selected app a v)) (a ++ b) = Some m ->
         node_selected m = v)
  /\ (forall b,
         (forall c, b <> a ++ c) ->
         node_data <$> Tree.node_at (file_tree (set_node_selected app a v)) b
         = node_data <$> Tree.node_at (file_tree app) b)
  /\ node_index (set_node_selected app a v) = node_index app.
Proof.
  intros Hn. unfold set_node_selected. simpl. split; [|split; [|split]].
  - now rewrite node_at_alter_here, Hn.
  - intros b m Hm. rewrite node_at_alter_below, Hn in Hm. simpl in Hm.
    rewrite node_at_set_subtree in Hm.
    destruct (Tree.node_at node b); [|discriminate].
    injection Hm as <-. apply set_subtree_selected.
  - intros b Hb. now apply alter_at_frame.
  - reflexivity.
Qed.

(** X10.  After [set_node_selected(node, v)] in a reachable state, the
    effective selection of every path indexed at or below the node is
    [v]: the loop returns [v] in its first round. *)
Theorem set_node_selected_effective app a v p b :
  reachable app ->
  node_index app !! p = Some (a ++ b) ->
  (forall fuel, effective_loop (S fuel) (set_node_selected app a v) p = Some v)
  /\ is_selected_effective (set_node_selected app a v) p = v.
Proof.
  intros Hr Hp. pose proof (reachable_wf _ Hr) as Hwf.
  destruct (wf_sound _ Hwf p _ Hp) as [m Hm].
  assert (Hfind : exists m', find_node_by_path (set_node_selected app a v) p = Some m'
                             /\ node_selected m' = v).
  { unfold find_node_by_path, set_node_selected. simpl. rewrite Hp.
    rewrite node_at_app in Hm.
    destruct (Tree.node_at (file_tree app) a) as [node|] eqn:En; [|discriminate].
    simpl in Hm. rewrite node_at_alter_below, En. simpl.
    rewrite node_at_set_subtree, Hm. simpl. eexists. split; [reflexivity|].
    apply set_subtree_selected. }
  destruct Hfind as (m' & Hf & Hv).
  assert (Hloop : forall fuel,
             effective_loop (S fuel) (set_node_selected app a v) p = Some v).
  { intros fuel. simpl. rewrite Hf. now rewrite Hv. }
  split; [exact Hloop|]. unfold is_selected_effective. now rewrite Hloop.
Qed.

(** X11.  [action_toggle] on a node flips it together with its loaded
    subtree: afterwards the node is its copy with the negated value
    stored all the way down, whatever the walk towards the root changed
    above it; the index is untouched; on an address without a node the
    state is unchanged. *)
Theorem action_toggle_flips app a :
  (forall node,
      Tree.node_at (file_tree app) a = Some node ->
      Tree.node_at (file_tree (action_toggle app a)) a
      = Some (Tree.set_subtree (negb (node_selected node)) node))
  /\ node_index (action_toggle app a) = node_index app
  /\ (Tree.node_at (file_tree app) a = None -> action_toggle app a = app).
Proof.
  unfold action_toggle. split; [|split].
  - intros node Hn. rewrite Hn. unfold update_parent_selection. simpl.
    rewrite update_parent_loop_here, node_at_alter_here, Hn. reflexivity.
  - destruct (Tree.node_at (file_tree app) a); reflexivity.
  - intros ->. reflexivity.
Qed.

(** *** Inheritance *)

Lemma effective_loop_S fuel app cur :
  effective_loop (S fuel) app cur
  = match find_node_by_path app cur with
    | Some node => Some (node_selected node)
    | None =>
        if decide (cur = ROOT) then Some true
        else effective_loop fuel app (PathOps.parent cur)
    end.
Proof. reflexivity. Qed.

(** X12.  The effective selection of a path below the root is the stored
    selection of its node when the path is indexed; otherwise it is the
    effective selection of its parent; for the root without index entry
    it is [True].  So a path that is not loaded inherits from its
    nearest indexed ancestor. *)
Theorem effective_selection_inherits app rel s :
  (forall n, find_node_by_path app (PathOps.under ROOT rel) = Some n ->
             is_selected_effective app (PathOps.under ROOT rel) = node_selected n)
  /\ (find_node_by_path app (PathOps.under ROOT (rel ++ [s])) = None ->
      is_selected_effective app (PathOps.under ROOT (rel ++ [s]))
      = is_selected_effective app (PathOps.under ROOT rel))
  /\ (find_node_by_path app ROOT = None -> is_selected_effective app ROOT = true).
Proof.
  split; [|split].
  - intros n Hn. apply (is_selected_effective_loop _ _ _ (S (List.length rel))); [lia|].
    simpl. now rewrite Hn.
  - intros Hnone. destruct (effective_loop_returns app rel) as [b Hb].
    rewrite (is_selected_effective_loop app rel b (S (List.length rel)))
      by (try lia; apply Hb; lia).
    apply (is_selected_effective_loop _ _ _ (S (S (List.length rel)))).
    + rewrite length_app. simpl. lia.
    + rewrite effective_loop_S, Hnone. rewrite decide_False.
      * rewrite PathOps.parent_under_snoc. apply Hb. lia.
      * intros H. apply PathOps.under_eq_root in H. now destruct rel.
  - intros Hnone. rewrite <- (PathOps.under_nil ROOT) at 1.
    apply (is_selected_effective_loop _ _ _ 1); [simpl; lia|].
    rewrite PathOps.under_nil. simpl. rewrite Hnone. now rewrite decide_True.
Qed.

(** *** Composition *)

Fixpoint TreeNode_rect' (P : TreeNode -> Prop)
         (H : forall d cs, Forall P cs -> P (Node d cs))
         (n : TreeNode) {struct n} : P n :=
  match n with
  | Node d cs =>
      H d cs ((fix all (l : list TreeNode) : Forall P l :=
                 match l with
                 | [] => Forall_nil P
                 | x :: r => Forall_cons P x r (TreeNode_rect' P H x) (all r)
                 end) cs)
  end.

Lemma set_subtree_again v w n :
  Tree.set_subtree w (Tree.set_subtree v n) = Tree.set_subtree w n.
Proof.
  induction n as [d cs IH] using TreeNode_rect'. simpl. f_equal.
  rewrite map_map. apply map_ext_Forall. exact IH.
Qed.

Lemma alter_at_twice f g a : forall t,
  Tree.alter_at f a (Tree.alter_at g a t) = Tree.alter_at (fun n => f (g n)) a t.
Proof.
  induction a as [|i a IH]; intros t; simpl; [reflexivity|]. f_equal.
  rewrite list_alter_alter_eq. apply list_alter_ext; [|reflexivity].
  intros x _. apply IH.
Qed.

Lemma alter_at_ext f g a : (forall n, f n = g n) ->
  forall t, Tree.alter_at f a t = Tree.alter_at g a t.
Proof.
  intros E. induction a as [|i a IH]; intros t; simpl; [apply E|]. f_equal.
  apply list_alter_ext; [|reflexivity]. intros x _. apply IH.
Qed.

(** X13.  A second [set_node_selected] on the same node overrides the
    first: only the last value counts.  In particular selecting all
    after selecting none is selecting all, and selecting all twice is
    selecting all once. *)
Theorem set_node_selected_overrides app a v w :
  set_node_selected (set_node_selected app a v) a w = set_node_selected app a w
  /\ action_select_all (action_select_none app) = action_select_all app
  /\ action_select_none (action_select_all app) = action_select_none app.
Proof.
  assert (H : forall a v w,
             set_node_selected (set_node_selected app a v) a w
             = set_node_selected app a w).
  { intros a' v' w'. unfold set_node_selected. simpl. f_equal.
    rewrite alter_at_twice. apply alter_at_ext. intros n. apply set_subtree_again. }
  split; [apply H|]. split; apply H.
Qed.

(* =============================================================== *)
(** ** Further properties of the DocumentBuilder *)

(** X14.  The contents section is made of the sections of the files
    [iter_files] yields whose effective selection is true, in the order
    [iter_files] yields them, which is the order of the filesystem
    listings and not the sorted order of the tree section; a file that
    is not effectively selected adds nothing. *)
Theorem contents_are_selected_files app root_listing :
  contents_lines app (iter_files (Dir (PathOps.name ROOT) root_listing) ROOT)
  = Some (concat (map file_section
                      (List.filter (fun x => is_selected_effective app (fst x))
                                   (iter_files (Dir (PathOps.name ROOT) root_listing) ROOT)))).
Proof. apply contents_lines_selected, iter_files_root_below. Qed.

(** When the first read returns: the length asked for is [-1] or more
    and within what the platform reads in one call. *)
Lemma first_read_returns bytes :
  (-2 <= MAX_BYTES)%Z ->
  (Z.min (MAX_BYTES + 1) 8192 <= READ_MAX)%Z ->
  exists unread,
    fh_read (Z.min (MAX_BYTES + 1) 8192) bytes = Some (sample_of bytes, unread).
Proof.
  intros HM HR. unfold sample_of.
  destruct (Z.eq_dec (Z.min (MAX_BYTES + 1) 8192) (-1)%Z) as [E|E].
  - rewrite E. eexists. reflexivity.
  - rewrite fh_read_in_range by lia. eexists. reflexivity.
Qed.



(** X16.  With a limit that is not negative and below the length the
    platform reads in one call, a file that is embedded (its sample is
    not binary, or [READ_BINARY] is on) gives the opening fence, the
    decoding of its first [MAX_BYTES] bytes (all of them when it has no
    more) without trailing newlines, the closing fence, and the
    truncation notice exactly when it has more than [MAX_BYTES]
    bytes. *)
Theorem embed_file_truncates_at_limit path bytes :
  (0 <= MAX_BYTES)%Z ->
  (MAX_BYTES < READ_MAX)%Z ->
  Sniff.detect_binary (sample_of bytes) && negb READ_BINARY = false ->
  embed_file path bytes
  = ["```" +:+ code_lang_for path;
     Str.rstrip "010"%char (text_of (firstn (Z.to_nat MAX_BYTES) bytes));
     "```"]
    ++ (if (MAX_BYTES <? Z.of_nat (List.length bytes))%Z
        then ["_...truncated at " +:+ Str.of_Z MAX_BYTES +:+ " bytes_"] else []).
Proof.
  intros HM HR Hbin. rewrite embed_file_unfold by (try split; assumption).
  rewrite embed_content_unfold. cbv zeta. rewrite length_firstn.
  destruct (Z.ltb_spec MAX_BYTES (Z.of_nat (List.length bytes))).
  - destruct (Z.ltb_spec MAX_BYTES
                (Z.of_nat (Z.to_nat (MAX_BYTES + 1) `min` List.length bytes))); [|lia].
    unfold slice_to. destruct (Z.leb_spec 0 MAX_BYTES); [|lia].
    rewrite firstn_firstn, Nat.min_l by lia. reflexivity.
  - destruct (Z.ltb_spec MAX_BYTES
                (Z.of_nat (Z.to_nat (MAX_BYTES + 1) `min` List.length bytes))); [lia|].
    rewrite !firstn_all2 by lia. reflexivity.
Qed.

(** X17.  Limits out of range.  With [MAX_BYTES <= -3] the first read
    raises, and every file, binary or not, gets the error notice with
    the text of that exception.  With [MAX_BYTES = -2] the first read
    returns the whole file; an embedded file that is empty gives an
    empty block and the truncation notice, one of 1 to 8192 bytes gets
    the error notice of the second read, and a longer one gives the
    decoding of the file without its last two bytes and the truncation
    notice.  With [MAX_BYTES = -1] nothing is read: the block is empty
    and the truncation notice follows.  With a limit so large that the
    second read asks for more than the platform reads in one call, an
    embedded file gets the error notice of the second read. *)
Theorem embed_file_limit_out_of_range path bytes :
  ((MAX_BYTES <= -3)%Z ->
   embed_file path bytes
   = ["_Error reading file: " +:+ read_error (MAX_BYTES + 1) +:+ "_"])
  /\ (MAX_BYTES = (-2)%Z ->
      sample_of bytes = bytes
      /\ (Sniff.detect_binary bytes && negb READ_BINARY = false ->
          (bytes = [] ->
           embed_file path bytes
           = ["```" +:+ code_lang_for path; Str.rstrip "010"%char (text_of []);
              "```"; "_...truncated at -2 bytes_"])
          /\ ((0 < Z.of_nat (List.length bytes) <= 8192)%Z ->
              embed_file path bytes
              = ["_Error reading file: "
                 +:+ read_error (-1 - Z.of_nat (List.length bytes)) +:+ "_"])
          /\ ((8192 < Z.of_nat (List.length bytes))%Z ->
              embed_file path bytes
              = ["```" +:+ code_lang_for path;
                 Str.rstrip "010"%char
                   (text_of (firstn (List.length bytes - 2) bytes));
                 "```"; "_...truncated at -2 bytes_"])))
  /\ (MAX_BYTES = (-1)%Z ->
      (0 <= READ_MAX)%Z ->
      embed_file path bytes
      = ["```" +:+ code_lang_for path; Str.rstrip "010"%char (text_of []);
         "```"; "_...truncated at -1 bytes_"])
  /\ ((8192 <= READ_MAX)%Z ->
      (READ_MAX + 8192 <= MAX_BYTES)%Z ->
      Sniff.detect_binary (sample_of bytes) && negb READ_BINARY = false ->
      embed_file path bytes
      = ["_Error reading file: "
         +:+ read_error (MAX_BYTES + 1 - Z.of_nat (List.length (sample_of bytes)))
         +:+ "_"]).
Proof.
  split; [|split; [|split]].
  - intros HM. unfold embed_file. cbv zeta.
    rewrite fh_read_below by lia. rewrite Z.min_l by lia. reflexivity.
  - intros HM.
    assert (Hs : sample_of bytes = bytes).
    { unfold sample_of. rewrite HM. reflexivity. }
    split; [exact Hs|]. intros Hbin.
    assert (E : embed_file path bytes
                = if (Z.of_nat (List.length bytes) <=? 8192)%Z
                  then match fh_read (MAX_BYTES + 1 - Z.of_nat (List.length bytes)) [] with
                       | None => [error_notice
                                    (read_error (MAX_BYTES + 1 - Z.of_nat (List.length bytes)))]
                       | Some (rest, _) => embed_content path (bytes ++ rest)
                       end
                  else embed_content path bytes).
    { unfold embed_file. cbv zeta.
      replace (Z.min (MAX_BYTES + 1) 8192) with (-1)%Z by lia.
      rewrite fh_read_all, Hbin. reflexivity. }
    split; [|split].
    + intros ->. rewrite E, HM. cbn [List.length Z.of_nat Z.leb Z.compare].
      cbn [Z.add Z.sub Z.opp Z.pos_sub Pos.pred_double].
      rewrite fh_read_all, embed_content_unfold, HM. reflexivity.
    + intros Hlen. rewrite E.
      destruct (Z.leb_spec (Z.of_nat (List.length bytes)) 8192); [|lia].
      rewrite fh_read_below by lia. unfold error_notice.
      replace (MAX_BYTES + 1 - Z.of_nat (List.length bytes))%Z
        with (-1 - Z.of_nat (List.length bytes))%Z by lia.
      reflexivity.
    + intros Hlen. rewrite E.
      destruct (Z.leb_spec (Z.of_nat (List.length bytes)) 8192); [lia|].
      rewrite embed_content_unfold. cbv zeta.
      destruct (Z.ltb_spec MAX_BYTES (Z.of_nat (List.length bytes))); [|lia].
      rewrite HM. reflexivity.
  - intros HM HR.
    assert (E1 : fh_read 0 bytes = Some ([], bytes))
      by (rewrite fh_read_in_range by lia; reflexivity).
    unfold embed_file. cbv zeta. rewrite HM.
    change (Z.min (-1 + 1) 8192) with 0%Z. rewrite E1.
    change (Sniff.detect_binary []) with false. cbn [andb].
    change (Z.of_nat (List.length (@nil byte)) <=? 8192)%Z with true. cbv iota.
    change (-1 + 1 - Z.of_nat (List.length (@nil byte)))%Z with 0%Z.
    rewrite E1. cbn [List.app].
    pose proof (embed_content_unfold path []) as Hc. rewrite HM in Hc.
    exact Hc.
  - intros HR HM Hbin.
    destruct (first_read_returns bytes ltac:(lia) ltac:(lia)) as [unread E].
    assert (Hlen : (Z.of_nat (List.length (sample_of bytes)) <= 8192)%Z).
    { unfold sample_of. rewrite fh_read_in_range by lia.
      rewrite length_firstn. lia. }
    unfold embed_file. cbv zeta. rewrite E, Hbin.
    destruct (Z.leb_spec (Z.of_nat (List.length (sample_of bytes))) 8192); [|lia].
    rewrite fh_read_above by lia. reflexivity.
Qed.

Lemma iter_files_kept e : forall p,
  below_root p ->
  Forall (fun x => kept (fst x) = true /\ entry_is_dir (snd x) = false)
         (iter_files e p).
Proof.
  induction e as [n c|n|n es IH] using entry_rect'; intros p Hp;
    try apply Forall_nil.
  cbn [iter_files]. induction es as [|c r IHr]; [apply Forall_nil|].
  apply Forall_cons_1 in IH as [IHc IH].
  destruct (should_skip (PathOps.child p (entry_name c))) as [[|]|] eqn:Es;
    [now apply IHr| |apply Forall_nil].
  apply Forall_app. split; [|now apply IHr].
  destruct (entry_is_dir c) eqn:Ed.
  - apply IHc. now apply below_root_child.
  - apply Forall_cons; [|apply Forall_nil]. split; [|exact Ed].
    simpl. unfold kept. now rewrite Es.
Qed.

(** X18.  [iter_files] never yields what the filter skips: every entry
    it yields is a file for which [should_skip] returns [False], and
    [should_skip] returns [False] for the root and for every directory
    between the root and the file. *)
Theorem iter_files_yields_kept root_listing q e :
  In (q, e) (iter_files (Dir (PathOps.name ROOT) root_listing) ROOT) ->
  should_skip q = Some false
  /\ entry_is_dir e = false
  /\ (forall rel more, q = PathOps.under ROOT (rel ++ more) ->
                       should_skip (PathOps.under ROOT rel) = Some false).
Proof.
  intros Hin.
  pose proof (iter_files_kept (Dir (PathOps.name ROOT) root_listing) ROOT below_root_ROOT)
    as Hall.
  rewrite Forall_forall in Hall. destruct (Hall _ Hin) as [Hk Hd]. simpl in Hk, Hd.
  assert (Hq : should_skip q = Some false).
  { unfold kept in Hk. destruct (should_skip q) as [[|]|]; congruence. }
  split; [exact Hq|]. split; [exact Hd|].
  intros rel more ->. destruct (should_skip_under_Some rel) as [[|] Hb]; [|exact Hb].
  apply should_skip_covers_subtree with (more := more) in Hb. congruence.
Qed.


(** *** What the upward walk leaves alone *)

Lemma set_own_at_frame v c t b :
  b <> c ->
  node_data <$> Tree.node_at (Tree.alter_at (Tree.set_own v) c t) b
  = node_data <$> Tree.node_at t b.
Proof.
  intros Hne. destruct (decide (c `prefix_of` b)) as [[d ->]|Hp].
  - rewrite node_at_alter_below, node_at_app.
    destruct (Tree.node_at t c) as [n|]; simpl; [|reflexivity].
    f_equal. apply node_at_same_children; [reflexivity|].
    intros ->. apply Hne. apply app_nil_r.
  - apply alter_at_frame. intros d ->. apply Hp. now exists d.
Qed.

Lemma update_parent_loop_frame rcur : forall t b,
  (forall d, d <> [] -> rev rcur <> b ++ d) ->
  node_data <$> Tree.node_at (update_parent_loop t rcur) b
  = node_data <$> Tree.node_at t b.
Proof.
  induction rcur as [|x rparent IH]; intros t b Hb; [reflexivity|].
  assert (Hb' : forall d, d <> [] -> rev rparent <> b ++ d).
  { intros d Hd E. apply (Hb (d ++ [x])).
    - now destruct d.
    - simpl. rewrite E. now rewrite app_assoc. }
  assert (Hne : b <> rev rparent).
  { intros ->. apply (Hb [x]); [discriminate|reflexivity]. }
  rewrite update_parent_loop_cons.
  destruct (Tree.node_at t (rev rparent)) as [parent|]; [|reflexivity].
  destruct (node_children parent) as [|c0 cs]; [reflexivity|]. cbv zeta.
  match goal with |- context [if ?c || ?c' then _ else _] => destruct (c || c') end;
    [|reflexivity].
  rewrite IH by assumption.
  match goal with |- context [if ?c then _ else _] => destruct c end;
    [reflexivity|].
  now apply set_own_at_frame.
Qed.

(** X22.  [update_parent_selection(node)] only writes to proper
    ancestors of the node: every node whose address is not a proper
    prefix of the node's address keeps its data, and the index is
    untouched. *)
Theorem update_parent_selection_frame app a b :
  (forall d, d <> [] -> a <> b ++ d) ->
  node_data <$> Tree.node_at (file_tree (update_parent_selection app a)) b
  = node_data <$> Tree.node_at (file_tree app) b
  /\ node_index (update_parent_selection app a) = node_index app.
Proof.
  intros Hb. split; [|reflexivity]. unfold update_parent_selection. simpl.
  apply update_parent_loop_frame. now rewrite rev_involutive.
Qed.

(** *** Pattern matching is relative to the root *)

Lemma is_hidden_root_part rel :
  is_hidden (PathOps.under ROOT rel)
  = is_hidden ROOT
    || existsb (fun part => Str.startswith part ".")
               (List.filter (fun part => negb (String.eqb part ".")) rel).
Proof.
  unfold is_hidden. rewrite parts_under.
  rewrite (filter_app _ (PathOps.parts ROOT) rel), existsb_app. reflexivity.
Qed.

End Program.

(* ================================================================= *)
(** ** The filter and the inspector on concrete inputs *)

(** C2 (amended).  A sample that holds a null byte is classified binary
    whatever else it holds.  For a sample of at most 8192 bytes, the most
    the builder reads for sniffing, [detect_binary] returns [True]
    exactly when the sample holds a null byte or more than 30% of its
    bytes are outside the allow-list of the code: bell, backspace, tab,
    newline, form feed, carriage return, escape and 0x20-0xFF. *)
Theorem detect_binary_iff (sample : list byte) :
  (In x00 sample -> Sniff.detect_binary sample = true)
  /\ ((Z.of_nat (List.length sample) <= 8192)%Z ->
      (Sniff.detect_binary sample = true <->
       In x00 sample
       \/ (3 * Z.of_nat (List.length sample)
           < 10 * Z.of_nat (List.length (Sniff.nontext sample)))%Z))
  /\ (forall b, Sniff.is_text_char b
                = (let n := Byte.to_N b in
                   existsb (N.eqb n) [7; 8; 9; 10; 12; 13; 27]%N
                   || (32 <=? n)%N && (n <=? 255)%N)).
Proof.
  split; [|split].
  - intros H. unfold Sniff.detect_binary.
    apply has_null_iff in H. now rewrite H.
  - intros Hlen. unfold Sniff.detect_binary.
    destruct (existsb (Byte.eqb x00) sample) eqn:E.
    + apply has_null_iff in E. tauto.
    + rewrite thirty_percent_exact by assumption. rewrite Z.ltb_lt.
      split; [tauto|]. intros [H|H]; [|assumption].
      apply has_null_iff in H. congruence.
  - apply is_text_char_spec.
Qed.

Lemma detect_binary_iff_witness :
  (Z.of_nat (List.length [x01; x02; x41; x42]%byte) <= 8192)%Z
  /\ Sniff.detect_binary [x01; x02; x41; x42]%byte = true.
Proof.
  assert (H : (Z.of_nat (List.length [x01; x02; x41; x42]%byte) <= 8192)%Z)
    by (vm_compute; discriminate).
  split; [exact H|].
  apply (proj1 (proj2 (detect_binary_iff [x01; x02; x41; x42]%byte)) H).
  right. vm_compute. reflexivity.
Defined.

(** C2, as stated, fails on a sample made of one bell byte: the stated
    allow-list leaves the byte out, so the whole sample is outside it,
    yet the code does not classify the sample as binary. *)
Lemma detect_binary_bell_counterexample :
  spec_sniff [x07]%byte = true /\ Sniff.detect_binary [x07]%byte = false.
Proof. split; vm_compute; reflexivity. Qed.

Module Example.

Definition ROOT : Path := mkPath "/" ["proj"].

(** The filter with the library model of [fnmatchcase]. *)
Definition should_skip (excludes : list string) (include_hidden : bool) : Path -> option bool :=
  should_skip PyLib.fnmatchcase ROOT excludes include_hidden.

End Example.

(** C1.  With hidden files included and the single exclude pattern
    [.*], the file [a.txt] directly below the root is skipped: the
    round for the empty prefix tests the current-directory marker, which
    the pattern matches.  Neither the name nor the root-relative path of
    the file, which has no ancestor below the root, matches the pattern,
    and no component of the path starts with a dot, so the filter as
    specified keeps the file. *)
Theorem should_skip_dot_pattern_unmatched_file :
  let p := PathOps.under Example.ROOT ["a.txt"] in
  Example.should_skip [".*"] true p = Some true
  /\ spec_should_skip PyLib.fnmatchcase Example.ROOT [".*"] true ["a.txt"] = false
  /\ PyLib.fnmatchcase "a.txt" ".*" = false
  /\ spec_is_hidden p = false
  /\ candidates ["a.txt"] 0 = ["."]
  /\ PyLib.fnmatchcase "." ".*" = true.
Proof. cbv zeta. repeat split; vm_compute; reflexivity. Qed.

(** C9.  The round for the empty prefix has the current-directory marker
    as its only candidate.  So when some configured pattern matches
    ["."], as [*] and [?] do, [path_matches_excludes] returns [True]
    for every path below the root and [should_skip] returns [True] for
    every path below the root other than the root, whatever the names. *)
Theorem dot_pattern_excludes_subtree
        (fnmatchcase : string -> string -> bool)
        (ROOT : Path) (EXCLUDES : list string) (INCLUDE_HIDDEN : bool)
        (rel : list string) :
  rel <> [] ->
  (exists pat, In pat EXCLUDES /\ fnmatchcase "." pat = true) ->
  candidates rel 0 = ["."]
  /\ path_matches_excludes fnmatchcase ROOT EXCLUDES (PathOps.under ROOT rel) = Some true
  /\ should_skip fnmatchcase ROOT EXCLUDES INCLUDE_HIDDEN (PathOps.under ROOT rel) = Some true
  /\ PyLib.fnmatchcase "." "*" = true
  /\ PyLib.fnmatchcase "." "?" = true.
Proof.
  intros Hrel Hpat.
  destruct (dot_pattern_skips fnmatchcase ROOT EXCLUDES INCLUDE_HIDDEN rel Hrel Hpat)
    as [H1 H2].
  repeat split; try assumption; reflexivity.
Qed.

Lemma dot_pattern_excludes_subtree_witness :
  ["src"; "main.py"] <> []
  /\ (exists pat, In pat ["?"; ".git"] /\ PyLib.fnmatchcase "." pat = true)
  /\ Example.should_skip ["?"; ".git"] true
       (PathOps.under Example.ROOT ["src"; "main.py"]) = Some true.
Proof.
  assert (H1 : ["src"; "main.py"] <> []) by discriminate.
  assert (H2 : exists pat, In pat ["?"; ".git"] /\ PyLib.fnmatchcase "." pat = true).
  { exists "?". split; [left; reflexivity|reflexivity]. }
  split; [exact H1|]. split; [exact H2|].
  apply (dot_pattern_excludes_subtree PyLib.fnmatchcase Example.ROOT
           ["?"; ".git"] true ["src"; "main.py"] H1 H2).
Defined.

(* ================================================================= *)
(** ** A small project, and the statements above on it *)

Module Project.

Definition ROOT : Path := Example.ROOT.
Definition EXCLUDES : list string := [".git"].

Definition bytes_of (s : string) : list byte := list_byte_of_string s.


Definition files (listing : option (list entry)) : list (Path * entry) :=
  iter_files PyLib.fnmatchcase ROOT EXCLUDES true (Dir (PathOps.name ROOT) listing) ROOT.


Definition can_reach : App -> Prop :=
  reachable PyLib.fnmatchcase PyLib.lower ROOT EXCLUDES true.

Definition expand : App -> list nat -> option (list (Path * bool)) -> option App :=
  on_tree_node_expanded PyLib.fnmatchcase PyLib.lower ROOT EXCLUDES true.

Definition or_else (o : option App) (d : App) : App :=
  match o with Some a => a | None => d end.

(** The root is expanded, then [src]; [src] is toggled off and its
    file [a.go] is toggled on again. *)
Definition src : Path := PathOps.child ROOT "src".
Definition a_go : Path := PathOps.child src "a.go".
Definition b_bin : Path := PathOps.child src "b.bin".

Definition app0 : App := compose ROOT true.
Definition app1 : App := or_else (expand app0 [] (Some [(src, true)])) app0.
Definition app2 : App :=
  or_else (expand app1 [0] (Some [(b_bin, false); (a_go, false)])) app1.
Definition app3 : App := action_toggle app2 [0].
Definition app4 : App := action_toggle app3 [0; 0].

(** [set_node_selected] on [b.bin] in that state, before the walk to
    the parents: both files are selected, [src] is not. *)
Definition app5 : App := set_node_selected app4 [0; 1] true.

Definition src_listing : option (list entry) :=
  Some [Dir "src" (Some [File "b.bin" (Readable [x00; x01]%byte);
                         File "a.go" (Readable (bytes_of "go"))])].



Lemma can_reach_app4 : can_reach app4.
Proof.
  apply reach_toggle, reach_toggle.
  apply (reach_expand _ _ _ _ _ app1 [0] (Node (mkNodeData src true true) [])
                      (Some [(b_bin, false); (a_go, false)])).
  - apply (reach_expand _ _ _ _ _ app0 [] (Node (mkNodeData ROOT true true) [])
                        (Some [(src, true)])).
    + apply reach_compose.
    + reflexivity.
    + repeat constructor. exists "src". reflexivity.
    + vm_compute. reflexivity.
  - vm_compute. reflexivity.
  - repeat constructor; [exists "b.bin"|exists "a.go"]; reflexivity.
  - vm_compute. reflexivity.
Qed.

End Project.






Lemma select_all_none_effective_witness :
  Project.can_reach Project.app4
  /\ is_selected_effective Project.ROOT (action_select_all Project.app4)
       (PathOps.under Project.ROOT ["src"; "b.bin"]) = true
  /\ is_selected_effective Project.ROOT (action_select_none Project.app4)
       (PathOps.under Project.ROOT ["docs"; "not"; "loaded.md"]) = false.
Proof.
  split; [exact Project.can_reach_app4|]. split.
  - apply (select_all_none_effective
             PyLib.fnmatchcase PyLib.lower Project.ROOT Project.EXCLUDES true
             Project.app4 ["src"; "b.bin"] Project.can_reach_app4).
  - apply (select_all_none_effective
             PyLib.fnmatchcase PyLib.lower Project.ROOT Project.EXCLUDES true
             Project.app4 ["docs"; "not"; "loaded.md"] Project.can_reach_app4).
Defined.

Lemma update_parent_selection_step_witness :
  Tree.node_at (file_tree Project.app5) [0]
  = Some (Node (mkNodeData Project.src false true)
               [Node (mkNodeData Project.a_go true false) [];
                Node (mkNodeData Project.b_bin true false) []])
  /\ Tree.node_at (file_tree (update_parent_selection Project.app5 ([0] ++ [1]))) [0]
     = Some (Node (mkNodeData Project.src true true)
                  [Node (mkNodeData Project.a_go true false) [];
                   Node (mkNodeData Project.b_bin true false) []])
  /\ node_selected
       <$> Tree.node_at (file_tree (update_parent_selection Project.app5 ([0] ++ [1]))) [0]
     = Some true
  /\ Tree.node_at (file_tree Project.app4) [0]
     = Some (Node (mkNodeData Project.src false true)
                  [Node (mkNodeData Project.a_go true false) [];
                   Node (mkNodeData Project.b_bin false false) []])
  /\ update_parent_selection Project.app4 ([0] ++ [1]) = Project.app4.
Proof.
  assert (H5 : Tree.node_at (file_tree Project.app5) [0]
               = Some (Node (mkNodeData Project.src false true)
                            [Node (mkNodeData Project.a_go true false) [];
                             Node (mkNodeData Project.b_bin true false) []]))
    by (vm_compute; reflexivity).
  assert (H4 : Tree.node_at (file_tree Project.app4) [0]
               = Some (Node (mkNodeData Project.src false true)
                            [Node (mkNodeData Project.a_go true false) [];
                             Node (mkNodeData Project.b_bin false false) []]))
    by (vm_compute; reflexivity).
  destruct (proj1 (update_parent_selection_step Project.app5 [0] 1 _ H5
                     (ex_intro _ _ eq_refl)) true) as (_ & E2 & E3 & _).
  { intros ch [<-|[<-|[]]]; reflexivity. }
  split; [exact H5|]. split; [exact E2|]. split; [exact E3|]. split; [exact H4|].
  apply (proj2 (update_parent_selection_step Project.app4 [0] 1 _ H4
                  (ex_intro _ _ eq_refl))).
  exists (Node (mkNodeData Project.a_go true false) []),
         (Node (mkNodeData Project.b_bin false false) []).
  split; [left; reflexivity|]. split; [right; left; reflexivity|].
  discriminate.
Defined.


Lemma effective_selection_terminates_witness :
  Project.can_reach Project.app4
  /\ (exists b, forall fuel,
         List.length ["src"; "deep"; "x.py"] < fuel ->
         effective_loop Project.ROOT fuel Project.app4
                        (PathOps.under Project.ROOT ["src"; "deep"; "x.py"]) = Some b)
  /\ (forall fuel, effective_loop Project.ROOT fuel Project.app4 (mkPath "/" ["etc"]) = None).
Proof.
  pose proof (effective_selection_terminates_below_root
                PyLib.fnmatchcase PyLib.lower Project.ROOT Project.EXCLUDES true
                Project.app4 Project.can_reach_app4) as [_ [H2 [H3 _]]].
  split; [exact Project.can_reach_app4|]. split; [apply H2|].
  apply H3. intros [rel H]. discriminate H.
Defined.

(* ================================================================= *)
(** ** Configuration read at start-up *)

Module Settings.

Definition DEFAULT_EXCLUDES : list string :=
  [".git"; "node_modules"; "__pycache__"; ".venv"; ".mypy_cache"].

(** [s.split(c)] for a one-character separator. *)
Fixpoint split (c : ascii) (s : string) : list string :=
  match s with
  | EmptyString => [EmptyString]
  | String a r =>
      if Ascii.eqb a c then EmptyString :: split c r
      else match split c r with
           | h :: t => String a h :: t
           | [] => [String a EmptyString]
           end
  end.

(** [c in s]. *)
Fixpoint has_char (c : ascii) (s : string) : bool :=
  match s with
  | EmptyString => false
  | String a r => Ascii.eqb a c || has_char c r
  end.

(** [str.strip()] on strings whose white space is ASCII: the
    characters 9 to 13, 28 to 32. *)
Definition is_space (c : ascii) : bool :=
  let n := N_of_ascii c in ((9 <=? n) && (n <=? 13) || (28 <=? n) && (n <=? 32))%N.

Fixpoint lstrip (s : string) : string :=
  match s with
  | EmptyString => EmptyString
  | String a r => if is_space a then lstrip r else s
  end.

Fixpoint rstrip (s : string) : string :=
  match s with
  | EmptyString => EmptyString
  | String a r =>
      match rstrip r with
      | EmptyString => if is_space a then EmptyString else String a EmptyString
      | r' => String a r'
      end
  end.

Definition strip_ascii (s : string) : string := rstrip (lstrip s).

Section Parsing.

(** [str.strip()], the library function. *)
Variable strip : string -> string.

(** [EXCLUDES] as computed from the environment variable, [None] when
    it is not set. *)
Definition env_excludes (env : option string) : list string :=
  let raw := match env with
             | Some v => v
             | None => Str.join "," DEFAULT_EXCLUDES
             end in
  map strip (List.filter (fun s => Str.truthy (strip s)) (split "," raw)).

(** The patterns the loop over the lines of [.filetreeignore] appends. *)
Definition ignore_patterns (lines : list string) : list string :=
  List.filter (fun line => Str.truthy line && negb (Str.startswith line "#"))
              (map strip lines).

(** [EXCLUDES] once the module is loaded; [ignore_file] is [None] when
    there is no [.filetreeignore] file. *)
Definition load_excludes (env : option string) (ignore_file : option (list string))
  : list string :=
  env_excludes env
  ++ match ignore_file with
     | Some lines => ignore_patterns lines
     | None => []
     end.

Lemma split_not_nil c s : split c s <> [].
Proof.
  destruct s as [|a r]; simpl; [discriminate|].
  destruct (Ascii.eqb a c); [discriminate|]. destruct (split c r); discriminate.
Qed.

Lemma split_plain c s : has_char c s = false -> split c s = [s].
Proof.
  induction s as [|a r IH]; simpl; [reflexivity|].
  intros H. apply orb_false_iff in H as [Ha Hr]. rewrite Ha, (IH Hr). reflexivity.
Qed.

Lemma split_append c s rest :
  has_char c s = false ->
  split c (s +:+ String c rest) = s :: split c rest.
Proof.
  induction s as [|a r IH]; simpl.
  - intros _. now rewrite Ascii.eqb_refl.
  - intros H. apply orb_false_iff in H as [Ha Hr]. rewrite Ha, (IH Hr). reflexivity.
Qed.

Lemma split_join (l : list string) :
  l <> [] -> Forall (fun s => has_char "," s = false) l ->
  split "," (Str.join "," l) = l.
Proof.
  induction l as [|x l IH]; intros Hne Hall; [congruence|].
  apply Forall_cons_1 in Hall as [Hx Hall].
  destruct l as [|y l]; simpl.
  - now apply split_plain.
  - change (split "," (x +:+ String "," (Str.join "," (y :: l))) = x :: y :: l).
    rewrite split_append by assumption. f_equal. apply IH; [discriminate|assumption].
Qed.

(** X20.  No configured exclude pattern is empty, and no pattern taken
    from the ignore file starts with [#], whatever the environment
    variable and the file hold. *)
Theorem configured_patterns_not_empty env ignore_file :
  Forall (fun pat => pat <> "") (load_excludes env ignore_file)
  /\ (forall lines, Forall (fun pat => Str.startswith pat "#" = false)
                           (ignore_patterns lines)).
Proof.
  split.
  - unfold load_excludes. apply Forall_app. split.
    + unfold env_excludes. apply Forall_forall. intros pat Hin.
      apply in_map_iff in Hin as (s & <- & Hs). apply filter_In in Hs as [_ Hs].
      intros E. rewrite E in Hs. discriminate.
    + destruct ignore_file as [lines|]; [|constructor].
      unfold ignore_patterns. apply Forall_forall. intros pat Hin.
      apply filter_In in Hin as [_ H]. apply andb_true_iff in H as [H _].
      intros E. rewrite E in H. discriminate.
  - intros lines. unfold ignore_patterns. apply Forall_forall. intros pat Hin.
    apply filter_In in Hin as [_ H]. apply andb_true_iff in H as [_ H].
    now apply negb_true_iff in H.
Qed.

(** X21.  Patterns written to the environment variable come back: for
    a non-empty list of patterns that are not empty, hold no comma and
    that [strip] leaves alone, joining them with commas and parsing the
    result gives the same list.  So with the variable unset, [EXCLUDES]
    starts as [DEFAULT_EXCLUDES]; and an empty variable gives no
    pattern. *)
Theorem env_excludes_round_trip (l : list string) :
  l <> [] ->
  Forall (fun s => s <> "" /\ has_char "," s = false /\ strip s = s) l ->
  env_excludes (Some (Str.join "," l)) = l
  /\ (Forall (fun s => strip s = s) DEFAULT_EXCLUDES ->
      env_excludes None = DEFAULT_EXCLUDES)
  /\ (strip "" = "" -> env_excludes (Some "") = []).
Proof.
  assert (H : forall l,
             Forall (fun s => s <> "" /\ has_char "," s = false /\ strip s = s) l ->
             map strip (List.filter (fun s => Str.truthy (strip s)) l) = l).
  { clear l. induction 1 as [|s l (Hne & _ & Hs) _ IH]; [reflexivity|].
    simpl. rewrite Hs. destruct s; [congruence|]. simpl. now rewrite Hs, IH. }
  intros Hne Hall. split; [|split].
  - unfold env_excludes.
    rewrite split_join; [now apply H|assumption|].
    eapply Forall_impl; [|exact Hall]. intros s (_ & Hc & _). exact Hc.
  - intros Hd. unfold env_excludes.
    rewrite split_join; [|discriminate|repeat constructor].
    apply H. unfold DEFAULT_EXCLUDES in *.
    repeat (apply Forall_cons_1 in Hd as [? Hd]).
    repeat constructor; try discriminate; assumption.
  - intros Hs. unfold env_excludes. simpl. now rewrite Hs.
Qed.

End Parsing.

End Settings.

(* ================================================================= *)
(** ** The further properties on the small project *)

Module Hidden.

(** A project kept below a dot directory, with hidden files excluded. *)
Definition ROOT : Path := mkPath "/" ["home"; ".cache"; "proj"].

Definition build_lines : App -> bool -> option (list entry) -> option (list string) :=
  build_lines PyLib.fnmatchcase PyLib.lower PyLib.decode_strict PyLib.decode_replace
              PyLib.READ_MAX PyLib.read_error
              ROOT [".git"] false 300000 false "◉" "◯".

End Hidden.

Lemma should_skip_covers_subtree_witness :
  Example.should_skip ["node_modules"] true
    (PathOps.under Example.ROOT ["web"; "node_modules"]) = Some true
  /\ Example.should_skip ["node_modules"] true
       (PathOps.under Example.ROOT (["web"; "node_modules"] ++ ["left-pad"; "index.js"]))
     = Some true.
Proof.
  assert (H : Example.should_skip ["node_modules"] true
                (PathOps.under Example.ROOT ["web"; "node_modules"]) = Some true)
    by (vm_compute; reflexivity).
  split; [exact H|].
  apply (should_skip_covers_subtree PyLib.fnmatchcase Example.ROOT ["node_modules"] true
           ["web"; "node_modules"] ["left-pad"; "index.js"] H).
Defined.

Lemma should_skip_raises_outside_root_witness :
  ~ below_root Example.ROOT (mkPath "/" ["etc"; "passwd"])
  /\ Example.should_skip [".git"] true (mkPath "/" ["etc"; "passwd"]) = None.
Proof.
  assert (H : ~ below_root Example.ROOT (mkPath "/" ["etc"; "passwd"])).
  { intros [rel E]. discriminate E. }
  split; [exact H|].
  apply (proj2 (should_skip_raises_outside_root PyLib.fnmatchcase Example.ROOT
                  [".git"] true (mkPath "/" ["etc"; "passwd"]))).
  split; [exact H|reflexivity].
Defined.

Lemma hidden_root_empties_document_witness :
  is_hidden Hidden.ROOT = true
  /\ Hidden.build_lines (compose Hidden.ROOT true) true Project.src_listing
     = Some (title_lines Hidden.ROOT ++ contents_heading).
Proof.
  assert (H : is_hidden Hidden.ROOT = true) by reflexivity.
  split; [exact H|].
  apply (proj2 (hidden_root_empties_document
                  PyLib.fnmatchcase PyLib.lower PyLib.decode_strict PyLib.decode_replace
                  PyLib.READ_MAX PyLib.read_error
                  Hidden.ROOT [".git"] false 300000 false "◉" "◯" eq_refl H)).
Defined.

Lemma text_sample_not_binary_witness :
  Sniff.detect_binary (Project.bytes_of "hello, world") = false.
Proof.
  apply text_sample_not_binary.
  - vm_compute. discriminate.
  - repeat constructor.
Defined.

Lemma populate_children_spec_witness :
  exists app',
    populate_children PyLib.fnmatchcase PyLib.lower Project.ROOT Project.EXCLUDES true
                      Project.app1 [0]
                      (Some [(Project.b_bin, false); (Project.a_go, false)]) = Some app'
    /\ Tree.node_at (file_tree app') [0]
       = Some (Node (mkNodeData Project.src true true)
                    [Node (mkNodeData Project.a_go true false) [];
                     Node (mkNodeData Project.b_bin true false) []]).
Proof.
  assert (H1 : Tree.node_at (file_tree Project.app1) [0]
               = Some (Node (mkNodeData Project.src true true) []))
    by (vm_compute; reflexivity).
  assert (H2 : Forall (fun x => below_root Project.ROOT (fst x))
                      [(Project.b_bin, false); (Project.a_go, false)]).
  { repeat constructor; [exists ["src"; "b.bin"]|exists ["src"; "a.go"]]; reflexivity. }
  destruct (proj2 (populate_children_spec
                     PyLib.fnmatchcase PyLib.lower Project.ROOT Project.EXCLUDES true
                     Project.app1 [0] _ _ H1 H2)) as (app' & Hrun & Hnode & _).
  exists app'. split; [exact Hrun|]. rewrite Hnode. vm_compute. reflexivity.
Defined.

Lemma refresh_resets_selection_witness :
  exists app',
    action_refresh PyLib.fnmatchcase PyLib.lower Project.ROOT Project.EXCLUDES true
                   Project.app4 (Some [(Project.src, true)]) = Some app'
    /\ is_selected_effective Project.ROOT Project.app4 Project.a_go = true
    /\ is_selected_effective Project.ROOT app' Project.a_go = false.
Proof.
  assert (H : lists Project.ROOT [(Project.src, true)]).
  { repeat constructor. exists "src". reflexivity. }
  destruct (refresh_resets_selection
              PyLib.fnmatchcase PyLib.lower Project.ROOT Project.EXCLUDES true
              Project.app4 (Some [(Project.src, true)]) H) as (app' & Hrun & _ & Hsel).
  exists app'. split; [exact Hrun|]. split; [vm_compute; reflexivity|].
  apply (Hsel ["src"; "a.go"]).
Defined.

Lemma index_names_nodes_witness :
  Project.can_reach Project.app4
  /\ nd_path (node_data (file_tree Project.app4)) = Project.ROOT.
Proof.
  split; [exact Project.can_reach_app4|].
  apply (index_names_nodes PyLib.fnmatchcase PyLib.lower Project.ROOT Project.EXCLUDES
                           true Project.app4 Project.can_reach_app4).
Defined.

Lemma set_node_selected_subtree_witness :
  node_index (set_node_selected Project.app4 [0] true) = node_index Project.app4.
Proof.
  apply (set_node_selected_subtree Project.app4 [0] true
           (Node (mkNodeData Project.src false true)
                 [Node (mkNodeData Project.a_go true false) [];
                  Node (mkNodeData Project.b_bin false false) []])).
  vm_compute. reflexivity.
Defined.

Lemma set_node_selected_effective_witness :
  node_index Project.app4 !! Project.b_bin = Some ([0] ++ [1])
  /\ is_selected_effective Project.ROOT Project.app4 Project.b_bin = false
  /\ is_selected_effective Project.ROOT (set_node_selected Project.app4 [0] true)
       Project.b_bin = true.
Proof.
  assert (H : node_index Project.app4 !! Project.b_bin = Some ([0] ++ [1]))
    by (vm_compute; reflexivity).
  split; [exact H|]. split; [vm_compute; reflexivity|].
  apply (set_node_selected_effective
           PyLib.fnmatchcase PyLib.lower Project.ROOT Project.EXCLUDES true
           Project.app4 [0] true Project.b_bin [1] Project.can_reach_app4 H).
Defined.

Lemma action_toggle_flips_witness :
  Tree.node_at (file_tree (action_toggle Project.app2 [0])) [0]
  = Some (Tree.set_subtree false
            (Node (mkNodeData Project.src true true)
                  [Node (mkNodeData Project.a_go true false) [];
                   Node (mkNodeData Project.b_bin true false) []])).
Proof.
  apply (proj1 (action_toggle_flips Project.app2 [0])
               (Node (mkNodeData Project.src true true)
                     [Node (mkNodeData Project.a_go true false) [];
                      Node (mkNodeData Project.b_bin true false) []])).
  vm_compute. reflexivity.
Defined.

Lemma effective_selection_inherits_witness :
  is_selected_effective Project.ROOT Project.app4
    (PathOps.under Project.ROOT (["src"; "pkg"] ++ ["mod.go"]))
  = is_selected_effective Project.ROOT Project.app4
      (PathOps.under Project.ROOT ["src"; "pkg"]).
Proof.
  apply (proj1 (proj2 (effective_selection_inherits Project.ROOT Project.app4
                         ["src"; "pkg"] "mod.go"))).
  vm_compute. reflexivity.
Defined.


Lemma embed_file_truncates_at_limit_witness :
  embed_file PyLib.lower PyLib.decode_strict PyLib.decode_replace
             PyLib.READ_MAX PyLib.read_error 4 false
             (PathOps.child Project.ROOT "notes.md") (Project.bytes_of "abcdefgh")
  = ["```markdown"; "abcd"; "```"; "_...truncated at 4 bytes_"].
Proof.
  rewrite (embed_file_truncates_at_limit
             PyLib.lower PyLib.decode_strict PyLib.decode_replace
             PyLib.READ_MAX PyLib.read_error 4 false
             (PathOps.child Project.ROOT "notes.md") (Project.bytes_of "abcdefgh")).
  - vm_compute. reflexivity.
  - vm_compute. discriminate.
  - vm_compute. reflexivity.
  - vm_compute. reflexivity.
Defined.

Lemma embed_file_limit_out_of_range_witness :
  embed_file PyLib.lower PyLib.decode_strict PyLib.decode_replace
             PyLib.READ_MAX PyLib.read_error (-3) false
             (PathOps.child Project.ROOT "notes.md") (Project.bytes_of "abcdefgh")
  = ["_Error reading file: read length must be non-negative or -1_"]
  /\ embed_file PyLib.lower PyLib.decode_strict PyLib.decode_replace
                PyLib.READ_MAX PyLib.read_error (-2) false
                (PathOps.child Project.ROOT "notes.md") (Project.bytes_of "abcdefgh")
     = ["_Error reading file: read length must be non-negative or -1_"]
  /\ embed_file PyLib.lower PyLib.decode_strict PyLib.decode_replace
                PyLib.READ_MAX PyLib.read_error (-1) false
                (PathOps.child Project.ROOT "notes.md") (Project.bytes_of "abcdefgh")
     = ["```markdown"; ""; "```"; "_...truncated at -1 bytes_"]
  /\ embed_file PyLib.lower PyLib.decode_strict PyLib.decode_replace
                PyLib.READ_MAX PyLib.read_error (2 ^ 64) false
                (PathOps.child Project.ROOT "notes.md") (Project.bytes_of "abcdefgh")
     = ["_Error reading file: cannot fit 'int' into an index-sized integer_"].
Proof.
  split; [|split; [|split]].
  - apply (proj1 (embed_file_limit_out_of_range
                    PyLib.lower PyLib.decode_strict PyLib.decode_replace
                    PyLib.READ_MAX PyLib.read_error (-3) false
                    (PathOps.child Project.ROOT "notes.md")
                    (Project.bytes_of "abcdefgh"))).
    vm_compute. discriminate.
  - apply (proj1 (proj2 (proj2 (proj1 (proj2 (embed_file_limit_out_of_range
                    PyLib.lower PyLib.decode_strict PyLib.decode_replace
                    PyLib.READ_MAX PyLib.read_error (-2) false
                    (PathOps.child Project.ROOT "notes.md")
                    (Project.bytes_of "abcdefgh"))) eq_refl) eq_refl))).
    split; [vm_compute; reflexivity|vm_compute; discriminate].
  - apply (proj1 (proj2 (proj2 (embed_file_limit_out_of_range
                    PyLib.lower PyLib.decode_strict PyLib.decode_replace
                    PyLib.READ_MAX PyLib.read_error (-1) false
                    (PathOps.child Project.ROOT "notes.md")
                    (Project.bytes_of "abcdefgh")))) eq_refl).
    vm_compute. discriminate.
  - apply (proj2 (proj2 (proj2 (embed_file_limit_out_of_range
                    PyLib.lower PyLib.decode_strict PyLib.decode_replace
                    PyLib.READ_MAX PyLib.read_error (2 ^ 64) false
                    (PathOps.child Project.ROOT "notes.md")
                    (Project.bytes_of "abcdefgh"))))).
    + vm_compute. discriminate.
    + vm_compute. discriminate.
    + vm_compute. reflexivity.
Defined.

Lemma iter_files_yields_kept_witness :
  In (Project.a_go, File "a.go" (Readable (Project.bytes_of "go")))
     (Project.files Project.src_listing)
  /\ should_skip PyLib.fnmatchcase Project.ROOT Project.EXCLUDES true Project.src
     = Some false.
Proof.
  assert (H : In (Project.a_go, File "a.go" (Readable (Project.bytes_of "go")))
                 (Project.files Project.src_listing)).
  { right. left. reflexivity. }
  split; [exact H|].
  apply (proj2 (proj2 (iter_files_yields_kept
                         PyLib.fnmatchcase Project.ROOT Project.EXCLUDES true
                         Project.src_listing _ _ H)) ["src"] ["a.go"]).
  reflexivity.
Defined.


Lemma env_excludes_round_trip_witness :
  Settings.env_excludes Settings.strip_ascii (Some "build,*.pyc,dist") = ["build"; "*.pyc"; "dist"]
  /\ Settings.env_excludes Settings.strip_ascii None = Settings.DEFAULT_EXCLUDES.
Proof.
  assert (H1 : ["build"; "*.pyc"; "dist"] <> []) by discriminate.
  assert (H2 : Forall (fun s => s <> "" /\ Settings.has_char "," s = false
                                /\ Settings.strip_ascii s = s)
                      ["build"; "*.pyc"; "dist"]).
  { repeat constructor; discriminate. }
  destruct (Settings.env_excludes_round_trip Settings.strip_ascii
              ["build"; "*.pyc"; "dist"] H1 H2) as (E1 & E2 & _).
  split; [exact E1|]. apply E2. repeat constructor.
Defined.

(** X23.  Pattern exclusion only looks at the segments below the root:
    two roots give the same answer for the same relative path.  The
    hidden rule also looks at the components of the root itself. *)
Theorem exclusion_is_root_relative
        (fnmatchcase : string -> string -> bool) (EXCLUDES : list string)
        (ROOT1 ROOT2 : Path) (rel : list string) :
  path_matches_excludes fnmatchcase ROOT1 EXCLUDES (PathOps.under ROOT1 rel)
  = path_matches_excludes fnmatchcase ROOT2 EXCLUDES (PathOps.under ROOT2 rel)
  /\ is_hidden (PathOps.under ROOT1 rel)
     = is_hidden ROOT1
       || existsb (fun part => Str.startswith part ".")
                  (List.filter (fun part => negb (String.eqb part ".")) rel).
Proof.
  split.
  - now rewrite !path_matches_excludes_under.
  - apply is_hidden_root_part.
Qed.

Lemma update_parent_selection_frame_witness :
  node_data <$> Tree.node_at (file_tree (update_parent_selection Project.app2 [0; 1])) [0; 0]
  = node_data <$> Tree.node_at (file_tree Project.app2) [0; 0].
Proof.
  apply (update_parent_selection_frame Project.app2 [0; 1] [0; 0]).
  intros d Hd E. discriminate E.
Defined.
